(** * apply_cache_fix.py: the one-shot patcher of twelvedata.ts

    A shallow embedding of [src/apply_cache_fix.py] and the properties of
    its text transformation and of its process behaviour.

    Python strings are sequences of Unicode code points; a text is
    modelled as a list of code points ([N]).  The file system is a finite
    map from path strings to files. *)

From Stdlib Require Import NArith ZArith Ascii.
From stdpp Require Import gmap strings list.

Open Scope N_scope.
Open Scope nat_scope.
Open Scope list_scope.

(** ** Texts *)

(** A Python string literal whose characters are all ASCII, as the list of
    its code points. *)
Definition py (s : string) : list N :=
  (fun a => Ascii.N_of_ascii a) <$> String.list_ascii_of_string s.

(** [s.startswith(p)] *)
Fixpoint startswith (s p : list N) : bool :=
  match p, s with
  | [], _ => true
  | a :: p', b :: s' => (a =? b)%N && startswith s' p'
  | _ :: _, [] => false
  end.

(** [p in s]: [p] occurs in [s] as a contiguous substring. *)
Fixpoint contains (s p : list N) : bool :=
  startswith s p ||
  match s with
  | [] => false
  | _ :: s' => contains s' p
  end.

(** The scanning loop shared by [re.sub] (with its default [count=0]) and
    [str.replace] (with its default [count=-1]): the text is read from the
    left; where the matcher [hit] accepts the text ahead, the [width]
    matched characters are dropped, [new] is emitted and the scan goes on
    behind the match; elsewhere one character is copied.  Every call
    consumes a character when [width] is positive, so [length s] calls are
    enough ([scan_fuel_enough] below). *)
Fixpoint scan (hit : list N -> bool) (width : nat) (new : list N)
    (fuel : nat) (s : list N) : list N :=
  match fuel with
  | O => s
  | S fuel' =>
      match s with
      | [] => []
      | c :: s' =>
          if hit s then new ++ scan hit width new fuel' (drop width s)
          else c :: scan hit width new fuel' s'
      end
  end.

(** [s.replace(old, new)].  With an empty [old] Python inserts [new]
    before every character and at the end. *)
Definition str_replace (s old new : list N) : list N :=
  match old with
  | [] => new ++ flat_map (fun c => c :: new) s
  | _ :: _ => scan (fun t => startswith t old) (length old) new (length s) s
  end.

(** ** The fragment of Python's regular expressions the script uses *)

Inductive atom : Type :=
  | Lit (c : N)      (* this character *)
  | AnyChar.         (* an unescaped dot *)

Definition backslash : N := 92%N.
Definition newline : N := 10%N.

Definition is_ascii_alnum (c : N) : bool :=
  ((48 <=? c) && (c <=? 57) || (65 <=? c) && (c <=? 90)
   || (97 <=? c) && (c <=? 122))%N.

(** The characters with a special meaning in a pattern:
    [. ^ $ * + ? { } [ ] \ | ( )]. *)
Definition is_special (c : N) : bool :=
  bool_decide (c ∈ [46; 94; 36; 42; 43; 63; 123; 125; 91; 93; 92; 124; 40; 41]%N).

(** Parsing.  A backslash followed by a character that is no ASCII letter
    or digit stands for that character; an unescaped dot is [AnyChar];
    a character that is not special stands for itself.  Everything else
    (classes, repetition, groups, alternation, anchors, letter and digit
    escapes) lies outside the fragment: [None]. *)
Fixpoint re_parse (p : list N) : option (list atom) :=
  match p with
  | [] => Some []
  | c :: rest =>
      if (c =? backslash)%N then
        match rest with
        | [] => None
        | e :: rest' =>
            if is_ascii_alnum e then None else cons (Lit e) <$> re_parse rest'
        end
      else if (c =? 46)%N then cons AnyChar <$> re_parse rest
      else if is_special c then None
      else cons (Lit c) <$> re_parse rest
  end.

(** A dot matches every character in dot-matches-all mode, and every
    character but the newline otherwise. *)
Definition atom_matches (dotall : bool) (a : atom) (c : N) : bool :=
  match a with
  | Lit x => (x =? c)%N
  | AnyChar => dotall || negb (c =? newline)%N
  end.

(** Does the pattern match at the start of [s]?  Each atom takes exactly
    one character. *)
Fixpoint re_match (dotall : bool) (r : list atom) (s : list N) : bool :=
  match r, s with
  | [], _ => true
  | a :: r', c :: s' => atom_matches dotall a c && re_match dotall r' s'
  | _ :: _, [] => false
  end.

(** The replacement template of [re.sub]: a backslash starts an escape or
    a group reference (outside the fragment); every other character is
    copied. *)
Definition expand_template (repl : list N) : option (list N) :=
  if existsb (fun c => (c =? backslash)%N) repl then None else Some repl.

(** [re.sub(pattern, repl, string, flags=...)], the flag being
    [re.DOTALL] or nothing.  [None]: pattern or template outside the
    fragment (an empty pattern included). *)
Definition re_sub (pattern repl string : list N) (dotall : bool)
    : option (list N) :=
  r ← re_parse pattern;
  t ← expand_template repl;
  match r with
  | [] => None
  | _ :: _ =>
      Some (scan (re_match dotall r) (length r) t (length string) string)
  end.

(** ** The constants of the script *)

Definition FILE_PATH : string := "worker\src\integrations\twelvedata.ts".

Definition old_func : list N := py
"function getCachedData<T>\(key: string\): T \| null \{
    const cached = cache\.get\(key\);
    if \(cached && \(Date\.now\(\) - cached\.timestamp\) < CACHE_TTL\) \{
        const ageSeconds = Math\.round\(\(Date\.now\(\) - cached\.timestamp\) / 1000\);
        console\.log\(`\[Cache\] Hit for \$\{key\} \(\$\{ageSeconds\}s old\)`\);
        return cached\.data;
    \}
    return null;
\}".

Definition new_func : list N := py
"function getCachedData<T>(key: string, ignoreExpiry: boolean = false): T | null {
    const cached = cache.get(key);
    if (!cached) return null;
    
    const ageSeconds = Math.round((Date.now() - cached.timestamp) / 1000);
    
    // When rate limited, return cache regardless of age
    if (ignoreExpiry) {
        console.log(`[Cache] Hit for ${key} (${ageSeconds}s old) - ignoring expiry`);
        return cached.data;
    }
    
    // Normal: check TTL
    if ((Date.now() - cached.timestamp) < CACHE_TTL) {
        console.log(`[Cache] Hit for ${key} (${ageSeconds}s old)`);
        return cached.data;
    }
    
    return null;
}".

(** The two arguments of the first [content.replace] (Fix 2). *)
Definition candles_old : list N := py
  "const cachedData = getCachedData<PricePoint[]>(cacheKey);".
Definition candles_new : list N := py
  "const cachedData = getCachedData<PricePoint[]>(cacheKey, true);".

(** The two arguments of the second [content.replace] (Fix 3 & 4). *)
Definition quote_old : list N := py
  "const cachedData = getCachedData<{ price: number; change: number; changePercent: number }>(cacheKey);".
Definition quote_new : list N := py
  "const cachedData = getCachedData<{ price: number; change: number; changePercent: number }>(cacheKey, true);".

(** ** The transformation of the text (the body of [apply_fixes] between
    reading and comparing) *)

Definition DOTALL : bool := true.

Definition apply_fixes_content (content : list N) : option (list N) :=
  content ← re_sub old_func new_func content DOTALL;
  let content := str_replace content candles_old candles_new in
  let content := str_replace content quote_old quote_new in
  Some content.

(** ** The process: files, console, exceptions *)

(** The exceptions the script can meet.  All but [SystemExit] are
    subclasses of [Exception]; [SystemExit] is what [exit] raises. *)
Inductive exn : Type :=
  | FileNotFoundError
  | PermissionError
  | UnicodeDecodeError
  | UnicodeEncodeError
  | OSError
  | re_error
  | SystemExit (code : Z).

Definition is_Exception (e : exn) : bool :=
  match e with
  | SystemExit _ => false
  | _ => true
  end.

(** A file: its bytes and what the process may do with it. *)
Record file : Type := File {
  f_bytes : list N;
  f_readable : bool;
  f_writable : bool
}.

(** What the process can observe and change.
    [write_fault = Some n]: the device takes [n] more bytes and fails
    the write that wants more.
    [stdout_symbols]: can the encoding of [sys.stdout] encode U+274C and
    U+2705, the two symbols the script prints (UTF-8 can; cp1252, latin-1
    and ASCII cannot).
    [error_text e]: what [str(e)] gives on this platform for an exception
    of this run (errno text, path and the like). *)
Record World : Type := MkWorld {
  fs : gmap string file;
  write_fault : option nat;
  stdout : list string;
  stdout_symbols : bool;
  error_text : exn -> string
}.

Definition set_stdout (out : list string) (w : World) : World :=
  MkWorld (fs w) (write_fault w) out (stdout_symbols w) (error_text w).

Definition set_fs (m : gmap string file) (w : World) : World :=
  MkWorld m (write_fault w) (stdout w) (stdout_symbols w) (error_text w).

(** Computations that read and change the world and may raise. *)
Definition M (A : Type) : Type := World -> (exn + A) * World.

Definition ret {A} (a : A) : M A := fun w => (inr a, w).

Definition raise {A} (e : exn) : M A := fun w => (inl e, w).

Definition bind {A B} (m : M A) (k : A -> M B) : M B :=
  fun w =>
    match m w with
    | (inl e, w') => (inl e, w')
    | (inr a, w') => k a w'
    end.

Notation "x <~ m ;; k" := (bind m (fun x => k))
  (at level 20, m at level 99, k at level 200, only parsing).
Notation "m ;;; k" := (bind m (fun _ => k))
  (at level 100, k at level 200, right associativity, only parsing).

(** [try: body except Exception as e: handler e] *)
Definition try_except_Exception {A} (body : M A) (handler : exn -> M A) : M A :=
  fun w =>
    match body w with
    | (inl e, w') => if is_Exception e then handler e w' else (inl e, w')
    | (inr a, w') => (inr a, w')
    end.

(** Does the line hold a character outside ASCII (a byte of its UTF-8
    form with the top bit set)?  The only such characters in the lines of
    this script are the symbols U+274C and U+2705: the message [str(e)]
    is printed behind U+274C. *)
Fixpoint has_non_ascii (line : string) : bool :=
  match line with
  | EmptyString => false
  | String (Ascii.Ascii _ _ _ _ _ _ _ b7) rest => b7 || has_non_ascii rest
  end.

(** [print(line)].  The line is encoded as a whole before anything goes
    out: on a console whose encoding lacks the symbols a line that holds
    one raises [UnicodeEncodeError] and nothing is printed. *)
Definition print (line : string) : M unit :=
  fun w =>
    if stdout_symbols w || negb (has_non_ascii line)
    then (inr tt, set_stdout (stdout w ++ [line]) w)
    else (inl UnicodeEncodeError, w).

(** [str(e)] *)
Definition str (e : exn) : M string := fun w => (inr (error_text w e), w).

(** [exit(code)] raises [SystemExit]. *)
Definition exit (code : Z) : M unit := raise (SystemExit code).

(** A pattern or template outside the modelled fragment of [re] is
    reported as [re.error]; the constants of the script never do that
    ([fix1_defined] below). *)
Definition of_re {A} (o : option A) : M A :=
  match o with
  | Some a => ret a
  | None => raise re_error
  end.

Section TextIO.

(** Text mode with [encoding='utf-8']: how bytes become a text on
    reading (decoding and newline translation; [None] where the bytes
    are no valid UTF-8) and how a text becomes bytes on writing.  The
    platform decides the newline part, so both are kept abstract. *)
Variable decode : list N -> option (list N).
Variable encode : list N -> list N.

(** [with open(path, 'r', encoding='utf-8') as f: f.read()] *)
Definition read_text (path : string) : M (list N) :=
  fun w =>
    match fs w !! path with
    | None => (inl FileNotFoundError, w)
    | Some f =>
        if f_readable f then
          match decode (f_bytes f) with
          | Some text => (inr text, w)
          | None => (inl UnicodeDecodeError, w)
          end
        else (inl PermissionError, w)
    end.

(** What is on the device after a write of [bytes] began. *)
Definition written (bytes : list N) (fault : option nat) : list N :=
  match fault with
  | None => bytes
  | Some n => take n bytes
  end.

(** Does the device fail a write of [bytes]?  Only when it takes fewer
    bytes than the write has. *)
Definition fails (bytes : list N) (fault : option nat) : bool :=
  match fault with
  | None => false
  | Some n => n <? length bytes
  end.

(** [with open(path, 'w', encoding='utf-8') as f: f.write(text)].
    Opening truncates the file (or creates it); a device fault leaves
    the bytes written so far. *)
Definition write_text (path : string) (text : list N) : M unit :=
  fun w =>
    let f := default (File [] true true) (fs w !! path) in
    if f_writable f then
      let f' := File (written (encode text) (write_fault w))
                     (f_readable f) (f_writable f) in
      let w' := set_fs (<[path := f']> (fs w)) w in
      if fails (encode text) (write_fault w)
      then (inl OSError, w')
      else (inr tt, w')
    else (inl PermissionError, w).

(** [apply_fixes()], statement by statement; its steps on [content] are
    those of [apply_fixes_content] ([apply_fixes_explicit] below). *)
Definition apply_fixes : M bool :=
  print "Reading file..." ;;;
  content <~ read_text FILE_PATH ;;
  let original := content in
  print "Applying Fix 1: getCachedData function..." ;;;
  content <~ of_re (re_sub old_func new_func content DOTALL) ;;
  print "Applying Fix 2: getStockCandles..." ;;;
  let content := str_replace content candles_old candles_new in
  print "Applying Fix 3 & 4: getStockQuote..." ;;;
  let content := str_replace content quote_old quote_new in
  if bool_decide (content = original) then
    print "❌ No changes applied - pattern matching failed!" ;;;
    ret false
  else
    print "Writing updated file..." ;;;
    write_text FILE_PATH content ;;;
    print "✅ Successfully applied all cache fixes!" ;;;
    print (String (Ascii.ascii_of_nat 10) "Next steps:") ;;;
    print "1. cd worker" ;;;
    print "2. npm run deploy" ;;;
    ret true.

(** The [if __name__ == "__main__"] block. *)
Definition main : M unit :=
  try_except_Exception
    (success <~ apply_fixes ;;
     exit (if success then 0 else 1)%Z)
    (fun e =>
       message <~ str e ;;
       print ("❌ Error: " +:+ message) ;;;
       exit 1%Z).

(** The exit status of the interpreter and the world it leaves: the
    code of a [SystemExit], 1 after any other uncaught exception (the
    traceback; an exception raised inside the handler is not caught by
    the same [try]), 0 when the module runs to its end. *)
Definition run (w : World) : Z * World :=
  match main w with
  | (inl (SystemExit code), w') => (code, w')
  | (inl _, w') => (1%Z, w')
  | (inr _, w') => (0%Z, w')
  end.

(** Does the module end by an exception other than [SystemExit]? *)
Definition crashes (w : World) : bool :=
  match main w with
  | (inl e, _) => is_Exception e
  | (inr _, _) => false
  end.

End TextIO.

(** A codec for concrete runs: UTF-8 restricted to ASCII bytes, without
    newline translation (a file with LF line ends on a POSIX host). *)
Definition ascii_decode (bytes : list N) : option (list N) :=
  if forallb (fun b => (b <? 128)%N) bytes then Some bytes else None.

Definition ascii_encode (text : list N) : list N := text.

(** ** Notions the properties are stated with *)

(** The function definition that the pattern [old_func] denotes, as it
    stands in the target file ([old_func_denotes] below). *)
Definition old_function : list N := py
"function getCachedData<T>(key: string): T | null {
    const cached = cache.get(key);
    if (cached && (Date.now() - cached.timestamp) < CACHE_TTL) {
        const ageSeconds = Math.round((Date.now() - cached.timestamp) / 1000);
        console.log(`[Cache] Hit for ${key} (${ageSeconds}s old)`);
        return cached.data;
    }
    return null;
}".

(** [Replaced old new s t]: [t] is [s] with every occurrence of [old]
    replaced by [new], the occurrences being taken from the left and not
    overlapping; a character is copied only where [old] does not start. *)
Inductive Replaced (old new : list N) : list N -> list N -> Prop :=
  | Replaced_nil : Replaced old new [] []
  | Replaced_copy c s t :
      startswith (c :: s) old = false ->
      Replaced old new s t ->
      Replaced old new (c :: s) (c :: t)
  | Replaced_hit s t :
      Replaced old new s t ->
      Replaced old new (old ++ s) (new ++ t).

(** [Patched rules s t]: [s] and [t] split into the same unchanged
    regions, in the same order, between which [s] has the left side of a
    rule where [t] has its right side. *)
Inductive Patched (rules : list (list N * list N)) : list N -> list N -> Prop :=
  | Patched_nil : Patched rules [] []
  | Patched_copy c s t :
      Patched rules s t ->
      Patched rules (c :: s) (c :: t)
  | Patched_span old new s t :
      (old, new) ∈ rules ->
      Patched rules s t ->
      Patched rules (old ++ s) (new ++ t).

(** The three substitutions as (old, new) pairs. *)
Definition fixes : list (list N * list N) :=
  [(old_function, new_func); (candles_old, candles_new); (quote_old, quote_new)].

(** Two texts agree when they are equal as far as both reach. *)
Fixpoint agree (a b : list N) : bool :=
  match a, b with
  | x :: a', y :: b' => (x =? y)%N && agree a' b'
  | _, _ => true
  end.

(** Can an occurrence of [q] start at a position of an occurrence of [p]? *)
Fixpoint starts_inside (q p : list N) : bool :=
  match p with
  | [] => false
  | _ :: p' => agree p q || starts_inside q p'
  end.

(** No occurrence of [p] shares a position with one of [q]. *)
Definition overlap_free (p q : list N) : bool :=
  negb (starts_inside q p) && negb (starts_inside p q).

(** The number of occurrences [scan] replaces: [s.count(old)]. *)
Fixpoint count_hits (old : list N) (fuel : nat) (s : list N) : nat :=
  match fuel with
  | O => O
  | S fuel' =>
      match s with
      | [] => O
      | _ :: s' =>
          if startswith s old then S (count_hits old fuel' (drop (length old) s))
          else count_hits old fuel' s'
      end
  end.

Definition str_count (s old : list N) : nat := count_hits old (length s) s.

(** The steps in the words of the specification. *)

(** The call-site fragments as the specification names them. *)
Definition call_candles : list N := py
  "getCachedData<PricePoint[]>(cacheKey)".
Definition call_quote : list N := py
  "getCachedData<{ price: number; change: number; changePercent: number }>(cacheKey)".

(** A call with [true] added as one more argument. *)
Definition with_true (call : list N) : list N :=
  removelast call ++ py ", true)".

(** The statement in which the target file makes the call. *)
Definition cached_data_statement (call : list N) : list N :=
  py "const cachedData = " ++ call ++ py ";".

(** The three steps in the words of the specification, each with the
    relation [Replaced]: every old definition of [getCachedData] becomes
    the new one; then the first call gets [true] as second argument; then
    the second call does. *)
Definition three_steps_in_order (text t1 t2 t3 : list N) : Prop :=
  Replaced old_function new_func text t1 /\
  Replaced (cached_data_statement call_candles)
    (cached_data_statement (with_true call_candles)) t1 t2 /\
  Replaced (cached_data_statement call_quote)
    (cached_data_statement (with_true call_quote)) t2 t3.

(** The minimal file of the concrete scenario: the old function and the
    two call sites, one per line. *)
Definition minimal_file : list N :=
  old_function ++ [newline] ++ candles_old ++ [newline] ++ quote_old
  ++ [newline].

Definition minimal_file_patched : list N :=
  new_func ++ [newline] ++ candles_new ++ [newline] ++ quote_new
  ++ [newline].

(** The same file with the call sites written as bare calls. *)
Definition minimal_file_bare_calls : list N :=
  old_function ++ [newline] ++ call_candles ++ [newline] ++ call_quote
  ++ [newline].

(** Parts of the new function: its signature, the branch that returns the
    cached data whatever its age, and the test of the time to live. *)
Definition new_signature : list N := py
  "function getCachedData<T>(key: string, ignoreExpiry: boolean = false): T | null {".

Definition bypass_branch : list N := py
"    if (ignoreExpiry) {
        console.log(`[Cache] Hit for ${key} (${ageSeconds}s old) - ignoring expiry`);
        return cached.data;
    }".

Definition ttl_test : list N := py
  "    if ((Date.now() - cached.timestamp) < CACHE_TTL) {".

(** Position of the first occurrence: [s.find(p)], [None] for -1. *)
Fixpoint str_find (s p : list N) : option nat :=
  if startswith s p then Some 0
  else match s with
       | [] => None
       | _ :: s' => S <$> str_find s' p
       end.

(** ** Host platforms and paths *)

Inductive platform : Type := Windows | Posix.

(** [os.sep] *)
Definition os_sep (p : platform) : Ascii.ascii :=
  match p with
  | Windows => "\"%char
  | Posix => "/"%char
  end.

(** The characters that separate the components of a path: [os.sep] and,
    on Windows, [os.altsep]. *)
Definition is_sep (p : platform) (c : Ascii.ascii) : bool :=
  match p with
  | Windows => Ascii.eqb c "\" || Ascii.eqb c "/"
  | Posix => Ascii.eqb c "/"
  end.

(** The components of a path, the current one being collected in [cur]. *)
Fixpoint components_from (p : platform) (cur : string) (path : string)
    : list string :=
  match path with
  | EmptyString => [cur]
  | String c rest =>
      if is_sep p c then cur :: components_from p EmptyString rest
      else components_from p (cur +:+ String c EmptyString) rest
  end.

Definition path_components (p : platform) (path : string) : list string :=
  components_from p EmptyString path.

(** [os.path.isabs], drive letters apart. *)
Definition isabs (p : platform) (path : string) : bool :=
  match path with
  | EmptyString => false
  | String c _ => is_sep p c
  end.

(** Has the path a drive letter ([C:])? *)
Definition has_drive (path : string) : bool :=
  match path with
  | String _ (String c _) => Ascii.eqb c ":"
  | _ => false
  end.

(** The characters of a path that are separators on a platform. *)
Fixpoint separators_used (p : platform) (path : string) : list Ascii.ascii :=
  match path with
  | EmptyString => []
  | String c rest =>
      if is_sep p c then c :: separators_used p rest
      else separators_used p rest
  end.


(** Does the path use the platform's [os.sep], and only that, between
    its components? *)
Definition uses_os_sep (p : platform) (path : string) : bool :=
  match separators_used p path with
  | [] => false
  | seps => forallb (Ascii.eqb (os_sep p)) seps
  end.

(** ** Worlds for concrete runs *)

(** Error texts of a POSIX host for the target path. *)
Definition posix_error_text (e : exn) : string :=
  match e with
  | FileNotFoundError =>
      "[Errno 2] No such file or directory: 'worker\\src\\integrations\\twelvedata.ts'"
  | PermissionError =>
      "[Errno 13] Permission denied: 'worker\\src\\integrations\\twelvedata.ts'"
  | UnicodeDecodeError =>
      "'utf-8' codec can't decode byte 0xff in position 0: invalid start byte"
  | UnicodeEncodeError =>
      "'charmap' codec can't encode character '\u2705' in position 0: character maps to <undefined>"
  | OSError => "[Errno 28] No space left on device"
  | re_error => "bad escape"
  | SystemExit code => ""
  end.

(** The target file with the given bytes, readable and writable, on a
    device without faults and a console that has the symbols; nothing
    printed yet. *)
Definition world_of (bytes : list N) : World :=
  MkWorld {[ FILE_PATH := File bytes true true ]} None [] true posix_error_text.

(** No target file. *)
Definition no_file : World := MkWorld ∅ None [] true posix_error_text.

(** The same world with a console whose encoding lacks the symbols. *)
Definition legacy_console (w : World) : World :=
  MkWorld (fs w) (write_fault w) (stdout w) false (error_text w).

(** The same world with a target file that may not be written. *)
Definition read_only (w : World) : World :=
  set_fs ((fun f => File (f_bytes f) (f_readable f) false) <$> fs w) w.

(** The same world on a device that takes [n] more bytes. *)
Definition device_limit (n : nat) (w : World) : World :=
  MkWorld (fs w) (Some n) (stdout w) (stdout_symbols w) (error_text w).

(** ** The lines a run prints *)

(** The progress lines up to the comparison of content and original. *)
Definition lines_steps : list string :=
  ["Reading file...";
   "Applying Fix 1: getCachedData function...";
   "Applying Fix 2: getStockCandles...";
   "Applying Fix 3 & 4: getStockQuote..."].

Definition line_no_changes : string :=
  "❌ No changes applied - pattern matching failed!".

Definition line_writing : string := "Writing updated file...".

Definition line_success : string := "✅ Successfully applied all cache fixes!".

(** The lines behind a write that returned. *)
Definition lines_success : list string :=
  [line_success;
   String (Ascii.ascii_of_nat 10) "Next steps:";
   "1. cd worker";
   "2. npm run deploy"].

(** The line of the handler of [main]. *)
Definition line_error (w : World) (e : exn) : string :=
  "❌ Error: " +:+ error_text w e.

(** What a run added to the console. *)
Definition printed (before after : World) : list string :=
  drop (length (stdout before)) (stdout after).

(** * Properties *)

(** ** Prefixes and occurrences *)

Section Occurrences.
Implicit Types s t p q x y : list N.

Lemma startswith_nil s : startswith s [] = true.
Proof. by destruct s. Qed.

Lemma startswith_spec s p : startswith s p = true <-> exists k, s = p ++ k.
Proof.
  revert s. induction p as [|a p IH]; intros s.
  - rewrite startswith_nil. split; [intros _; by exists s | done].
  - destruct s as [|b s]; simpl.
    + split; [done | intros [k Hk]; discriminate].
    + rewrite Bool.andb_true_iff, N.eqb_eq, IH. split.
      * intros [-> [k ->]]. by exists k.
      * intros [k Hk]. injection Hk as -> ->. split; [done | by exists k].
Qed.

Lemma startswith_app p k : startswith (p ++ k) p = true.
Proof. apply startswith_spec. by exists k. Qed.

Lemma contains_unfold s p :
  contains s p =
  startswith s p || match s with [] => false | _ :: s' => contains s' p end.
Proof. by destruct s. Qed.

Lemma contains_cons c s p : contains s p = true -> contains (c :: s) p = true.
Proof. intros H. rewrite contains_unfold, H. apply Bool.orb_true_r. Qed.

Lemma contains_app_r x s p : contains s p = true -> contains (x ++ s) p = true.
Proof. intros H. induction x as [|c x IH]; [done | by apply contains_cons]. Qed.

Lemma contains_here s p : startswith s p = true -> contains s p = true.
Proof. intros H. by rewrite contains_unfold, H. Qed.

Lemma contains_spec s p :
  contains s p = true <-> exists l r, s = l ++ p ++ r.
Proof.
  split.
  - induction s as [|c s IH]; rewrite contains_unfold.
    + rewrite Bool.orb_false_r. intros [k ->]%startswith_spec. by exists [], k.
    + intros [[k Hk]%startswith_spec | H]%Bool.orb_true_iff.
      * by exists [], k.
      * destruct (IH H) as (l & r & ->). by exists (c :: l), r.
  - intros (l & r & ->). apply contains_app_r, contains_here, startswith_app.
Qed.

Lemma contains_nil_l p : p <> [] -> contains [] p = false.
Proof. by destruct p. Qed.

(** Two prefixes of one text agree. *)
Lemma agree_prefixes a b x y : a ++ x = b ++ y -> agree a b = true.
Proof.
  revert b. induction a as [|c a IH]; intros [|d b]; simpl; try done.
  intros [= -> H]. rewrite N.eqb_refl. eauto.
Qed.

Lemma startswith_agree x s p : startswith (x ++ s) p = true -> agree x p = true.
Proof. intros [k Hk]%startswith_spec. by eapply agree_prefixes. Qed.

Lemma starts_inside_cons q c p :
  starts_inside q (c :: p) = false ->
  agree (c :: p) q = false /\ starts_inside q p = false.
Proof. cbn [starts_inside]. by intros ?%Bool.orb_false_iff. Qed.

(** An occurrence of [p] in [x ++ y] that cannot start inside [x] lies
    in [y]. *)
Lemma contains_app_skip x y p :
  starts_inside p x = false ->
  contains (x ++ y) p = true -> contains y p = true.
Proof.
  induction x as [|c x IH]; [done|].
  intros [Ha Hi]%starts_inside_cons. rewrite contains_unfold.
  intros [H | H]%Bool.orb_true_iff; [|by apply IH].
  apply startswith_agree in H. congruence.
Qed.

End Occurrences.

(** ** The scanning loop *)

Lemma scan_fuel hit width new fuel1 fuel2 s :
  0 < width -> length s <= fuel1 -> length s <= fuel2 ->
  scan hit width new fuel1 s = scan hit width new fuel2 s.
Proof.
  intros Hw. revert fuel2 s.
  induction fuel1 as [|fuel1 IH]; intros fuel2 s H1 H2.
  - destruct s; [by destruct fuel2 | simpl in H1; lia].
  - destruct s as [|c s]; [by destruct fuel2|].
    destruct fuel2 as [|fuel2]; [simpl in H2; lia|].
    simpl in H1, H2. cbn [scan]. destruct (hit (c :: s)).
    + f_equal. apply IH; rewrite length_drop; simpl; lia.
    + f_equal. apply IH; lia.
Qed.

(** The fuel [length s] that [str_replace] and [re_sub] give is enough:
    more fuel changes nothing. *)
Lemma scan_fuel_enough hit width new fuel s :
  0 < width -> length s <= fuel ->
  scan hit width new fuel s = scan hit width new (length s) s.
Proof. intros. by apply scan_fuel. Qed.

Lemma scan_ext hit hit' width new fuel s :
  (forall t, hit t = hit' t) ->
  scan hit width new fuel s = scan hit' width new fuel s.
Proof.
  intros Hext. revert s. induction fuel as [|fuel IH]; intros s; [done|].
  destruct s as [|c s]; [done|]. cbn [scan]. rewrite Hext.
  destruct (hit' (c :: s)); f_equal; apply IH.
Qed.

Lemma str_replace_scan s old new :
  old <> [] ->
  str_replace s old new =
  scan (fun t => startswith t old) (length old) new (length s) s.
Proof. by destruct old. Qed.

Section Scanning.
Variables old new : list N.
Hypothesis old_nonempty : old <> [].
Implicit Types s t : list N.

Lemma scan_Replaced fuel s :
  length s <= fuel ->
  Replaced old new s
    (scan (fun t => startswith t old) (length old) new fuel s).
Proof.
  revert s. induction fuel as [|fuel IH]; intros s Hlen.
  - destruct s; [constructor | simpl in Hlen; lia].
  - destruct s as [|c s]; [constructor|].
    cbn [scan]. destruct (startswith (c :: s) old) eqn:Hs.
    + apply startswith_spec in Hs as [k Hk]. rewrite Hk.
      rewrite drop_app_length. constructor. apply IH.
      apply (f_equal length) in Hk. rewrite length_app in Hk.
      assert (0 < length old) by (destruct old; [done | simpl; lia]).
      simpl in Hlen, Hk. lia.
    + constructor; [done|]. apply IH. simpl in Hlen. lia.
Qed.

Lemma str_replace_Replaced s : Replaced old new s (str_replace s old new).
Proof. rewrite str_replace_scan by done. by apply scan_Replaced. Qed.

Lemma Replaced_contains_new s t :
  Replaced old new s t -> contains s old = true -> contains t new = true.
Proof.
  induction 1 as [|c s t Hc H IH|s t H IH]; intros Hs.
  - by rewrite contains_nil_l in Hs.
  - rewrite contains_unfold, Hc in Hs. apply contains_cons; auto.
  - apply contains_here, startswith_app.
Qed.

Lemma Replaced_absent s t :
  Replaced old new s t -> contains s old = false -> t = s.
Proof.
  induction 1 as [|c s t Hc H IH|s t H IH]; intros Hs; [done| |].
  - f_equal. apply IH. rewrite contains_unfold in Hs.
    by apply Bool.orb_false_iff in Hs as [_ ?].
  - by rewrite contains_here in Hs by apply startswith_app.
Qed.

Lemma Replaced_length s t :
  length old <= length new -> Replaced old new s t -> length s <= length t.
Proof.
  intros Hl. induction 1; [done | simpl; lia |].
  rewrite !length_app. lia.
Qed.

Lemma Replaced_longer s t :
  length old < length new ->
  Replaced old new s t -> contains s old = true -> length s < length t.
Proof.
  intros Hl. induction 1 as [|c s t Hc H IH|s t H IH]; intros Hs.
  - by rewrite contains_nil_l in Hs.
  - rewrite contains_unfold, Hc in Hs. simpl. apply IH in Hs. lia.
  - rewrite !length_app. apply Replaced_length in H; lia.
Qed.

Lemma Replaced_Patched s t :
  Replaced old new s t -> Patched [(old, new)] s t.
Proof.
  induction 1; [constructor | by constructor |].
  apply Patched_span; [apply list_elem_of_here | done].
Qed.

(** The result is determined. *)
Lemma Replaced_fun s t t' :
  Replaced old new s t -> Replaced old new s t' -> t = t'.
Proof.
  intros H. revert t'.
  induction H as [|c s t Hc H IH|s t H IH]; intros t' H'.
  - inversion H' as [| |s0 t0 H0 Heq]; [done|].
    apply app_eq_nil in Heq as [? _]. done.
  - inversion H' as [|c0 s0 t0 Hc0 H0|s0 t0 H0 Heq]; subst.
    + f_equal. by apply IH.
    + rewrite <- Heq, startswith_app in Hc. done.
  - remember (old ++ s) as os eqn:Hos.
    destruct H' as [|c0 s0 t0 Hc0 H0|s0 t0 H0].
    + symmetry in Hos. apply app_eq_nil in Hos as [? _]. done.
    + rewrite Hos, startswith_app in Hc0. done.
    + apply app_inv_head in Hos as ->. f_equal. by apply IH.
Qed.

End Scanning.

(** ** Regions that a patch leaves alone *)

Section PatchedFacts.
Implicit Types R : list (list N * list N).
Implicit Types s t u p : list N.

Lemma Patched_mono R R' s t : R ⊆ R' -> Patched R s t -> Patched R' s t.
Proof.
  intros Hsub. induction 1; [constructor | by constructor |].
  apply Patched_span; auto.
Qed.

Lemma Patched_refl R s : Patched R s s.
Proof. induction s; by constructor. Qed.

Lemma Patched_sym R s t : Patched R s t -> Patched (prod_swap <$> R) t s.
Proof.
  induction 1 as [|c s t H IH|old new s t Hin H IH];
    [constructor | by constructor |].
  apply Patched_span; [|done].
  apply (list_elem_of_fmap_2 prod_swap) in Hin. done.
Qed.

Lemma swap_swap R : prod_swap <$> (prod_swap <$> R) = R.
Proof. induction R as [|[a b] R IH]; [done | simpl; by f_equal]. Qed.

(** A prefix in which no left side can start is copied. *)
Lemma Patched_through R p s u :
  Forall (fun r => starts_inside r.1 p = false) R ->
  Patched R (p ++ s) u ->
  exists u', u = p ++ u' /\ Patched R s u'.
Proof.
  revert u. induction p as [|a p IH]; intros u HF H; [by exists u|].
  remember ((a :: p) ++ s) as ps eqn:Hps.
  destruct H as [|c s0 t0 H|old new s0 t0 Hin H]; [done| |].
  - injection Hps as -> ->.
    destruct (IH t0) as (u' & -> & Hu'); [|done|by exists u'].
    eapply Forall_impl; [exact HF|].
    intros r Hr. by apply starts_inside_cons in Hr as [_ ?].
  - rewrite Forall_forall in HF. apply HF in Hin. cbn [fst] in Hin.
    apply starts_inside_cons in Hin as [Ha _].
    symmetry in Hps. apply (agree_prefixes (a :: p) old s s0) in Hps.
    congruence.
Qed.

Lemma Patched_through_back R p s t :
  Forall (fun r => starts_inside r.2 p = false) R ->
  Patched R s (p ++ t) ->
  exists s', s = p ++ s' /\ Patched R s' t.
Proof.
  intros HF H%Patched_sym. apply Patched_through in H.
  - destruct H as (s' & -> & H%Patched_sym). rewrite swap_swap in H. eauto.
  - apply Forall_fmap. eapply Forall_impl; [exact HF|]. by intros [??].
Qed.

Lemma Patched_startswith R s t p :
  Forall (fun r => starts_inside r.1 p = false) R ->
  Patched R s t -> startswith s p = true -> startswith t p = true.
Proof.
  intros HF H [k ->]%startswith_spec.
  destruct (Patched_through R p k t HF H) as (u' & -> & _).
  apply startswith_app.
Qed.

Lemma Patched_startswith_back R s t p :
  Forall (fun r => starts_inside r.2 p = false) R ->
  Patched R s t -> startswith t p = true -> startswith s p = true.
Proof.
  intros HF H [k ->]%startswith_spec.
  destruct (Patched_through_back R p s k HF H) as (u' & -> & _).
  apply startswith_app.
Qed.

(** An occurrence that shares no position with a left side is still
    there after the patch. *)
Lemma Patched_contains R s t p :
  Forall (fun r => overlap_free r.1 p = true) R ->
  Patched R s t -> contains s p = true -> contains t p = true.
Proof.
  intros HF. assert (HF1 : Forall (fun r => starts_inside r.1 p = false) R).
  { eapply Forall_impl; [exact HF|]. intros r Hr. unfold overlap_free in Hr.
    apply Bool.andb_true_iff in Hr as [_ Hr]. by apply Bool.negb_true_iff. }
  induction 1 as [|c s t H IH|old new s t Hin H IH]; intros Hs; [done| |].
  - rewrite contains_unfold in Hs.
    apply Bool.orb_true_iff in Hs as [Hs|Hs]; [|by apply contains_cons, IH].
    apply contains_here. eapply Patched_startswith; [exact HF1| |exact Hs].
    by constructor.
  - apply contains_app_r, IH. apply (contains_app_skip old); [|done].
    rewrite Forall_forall in HF. apply HF in Hin. unfold overlap_free in Hin.
    apply Bool.andb_true_iff in Hin as [Hin _]. by apply Bool.negb_true_iff.
Qed.

(** An occurrence in the result that shares no position with a right
    side was there before. *)
Lemma Patched_contains_back R s t p :
  Forall (fun r => overlap_free r.2 p = true) R ->
  Patched R s t -> contains t p = true -> contains s p = true.
Proof.
  intros HF H%Patched_sym.
  apply (Patched_contains (prod_swap <$> R) t s p); [|done].
  apply Forall_fmap. eapply Forall_impl; [exact HF|]. by intros [??].
Qed.

(** Two patches in a row are one patch when the left sides of the
    second share no position with the right sides of the first. *)
Lemma Patched_trans_bounded R1 R2 n s t u :
  Forall (fun r => r.1 <> []) R1 ->
  Forall (fun r => r.1 <> []) R2 ->
  Forall (fun r1 => Forall (fun r2 => overlap_free r1.2 r2.1 = true) R2) R1 ->
  length s + length t <= n ->
  Patched R1 s t -> Patched R2 t u -> Patched (R1 ++ R2) s u.
Proof.
  intros Hne1 Hne2 HF. revert s t u.
  induction n as [|n IH]; intros s t u Hn H1 H2.
  - destruct H1 as [| |old new s t Hin H1]; simpl in Hn; [|lia|].
    + eapply Patched_mono; [|exact H2]. set_solver.
    + rewrite Forall_forall in Hne1. apply Hne1 in Hin. simpl in Hin.
      destruct old; [done | simpl in Hn; lia].
  - destruct H1 as [|c s t H1|old new s t Hin H1].
    + eapply Patched_mono; [|exact H2]. set_solver.
    + remember (c :: t) as ct eqn:Hct.
      destruct H2 as [|c' t' u' H2|old2 new2 t' u' Hin2 H2]; [done| |].
      * injection Hct as -> ->. constructor.
        apply (IH s t u'); [simpl in Hn; lia|done..].
      * assert (Hb : Forall (fun r => starts_inside r.2 old2 = false) R1).
        { rewrite Forall_forall in HF |- *. intros r Hr.
          specialize (HF r Hr). rewrite Forall_forall in HF.
          specialize (HF _ Hin2). unfold overlap_free in HF. simpl in HF.
          apply Bool.andb_true_iff in HF as [_ HF].
          by apply Bool.negb_true_iff. }
        assert (H1' : Patched R1 (c :: s) (old2 ++ t')).
        { rewrite Hct. by constructor. }
        destruct (Patched_through_back R1 old2 _ t' Hb H1') as (s' & Hs & Hs').
        rewrite Hs. apply Patched_span; [set_solver|].
        rewrite Forall_forall in Hne2. apply Hne2 in Hin2. simpl in Hin2.
        apply (IH s' t' u'); [|done..].
        apply (f_equal length) in Hs, Hct. rewrite length_app in Hs, Hct.
        destruct old2; [done|]. simpl in Hn, Hs, Hct.
        rewrite ?length_app in Hn. lia.
    + assert (Hf : Forall (fun r => starts_inside r.1 new = false) R2).
      { rewrite Forall_forall in HF. specialize (HF _ Hin).
        eapply Forall_impl; [exact HF|]. intros r Hr.
        unfold overlap_free in Hr. simpl in Hr.
        apply Bool.andb_true_iff in Hr as [Hr _].
        by apply Bool.negb_true_iff. }
      destruct (Patched_through R2 new t u Hf H2) as (u' & -> & Hu').
      apply Patched_span; [set_solver|].
      rewrite Forall_forall in Hne1. apply Hne1 in Hin. simpl in Hin.
      apply (IH s t u'); [|done..].
      rewrite !length_app in Hn. destruct old; [done|]. simpl in Hn. lia.
Qed.

Lemma Patched_trans R1 R2 s t u :
  Forall (fun r => r.1 <> []) R1 ->
  Forall (fun r => r.1 <> []) R2 ->
  Forall (fun r1 => Forall (fun r2 => overlap_free r1.2 r2.1 = true) R2) R1 ->
  Patched R1 s t -> Patched R2 t u -> Patched (R1 ++ R2) s u.
Proof. intros. by eapply (Patched_trans_bounded R1 R2 _ s t u). Qed.

End PatchedFacts.

(** After all occurrences of [old] were replaced by a [new] that shares no
    position with [old], no occurrence of [old] is left. *)
Lemma Replaced_no_old old new s t :
  old <> [] -> overlap_free old new = true ->
  Replaced old new s t -> contains t old = false.
Proof.
  intros Hne [Hno Hon]%Bool.andb_true_iff.
  apply Bool.negb_true_iff in Hno, Hon.
  induction 1 as [|c s t Hc H IH|s t H IH].
  - by apply contains_nil_l.
  - rewrite contains_unfold, IH, Bool.orb_false_r.
    destruct (startswith (c :: t) old) eqn:Ht; [|done].
    rewrite <- Hc. symmetry.
    apply (Patched_startswith_back [(old, new)] (c :: s) (c :: t) old);
      [by repeat constructor | | done].
    apply Replaced_Patched. by constructor.
  - destruct (contains (new ++ t) old) eqn:Ht; [|done].
    apply contains_app_skip in Ht; [congruence | done].
Qed.

(** ** The regular expression of Fix 1 *)

Lemma re_match_lits dotall l s :
  re_match dotall (Lit <$> l) s = startswith s l.
Proof.
  revert s. induction l as [|a l IH]; intros [|c s]; simpl; try done.
  by rewrite IH.
Qed.

(** A pattern without special characters is a literal search. *)
Lemma re_sub_literal pattern repl l s dotall :
  re_parse pattern = Some (Lit <$> l) ->
  expand_template repl = Some repl ->
  l <> [] ->
  re_sub pattern repl s dotall = Some (str_replace s l repl).
Proof.
  intros Hp Ht Hl. unfold re_sub. rewrite Hp, Ht. cbn [mbind option_bind].
  rewrite str_replace_scan by done.
  assert (Hr : forall r : list atom, r <> [] ->
    match r with
    | [] => None
    | _ :: _ => Some (scan (re_match dotall r) (length r) repl (length s) s)
    end = Some (scan (re_match dotall r) (length r) repl (length s) s))
    by (by intros [|??]).
  rewrite Hr by (by destruct l). f_equal.
  rewrite length_fmap. apply scan_ext. intros t. apply re_match_lits.
Qed.

(** Every special character of [old_func] is escaped: the pattern denotes
    the text [old_function] and holds no dot. *)
Lemma old_func_denotes : re_parse old_func = Some (Lit <$> old_function).
Proof. vm_compute. reflexivity. Qed.

Lemma new_func_template : expand_template new_func = Some new_func.
Proof. vm_compute. reflexivity. Qed.

Lemma old_function_nonempty : old_function <> [].
Proof. intros H. apply (f_equal length) in H. vm_compute in H. discriminate. Qed.

Lemma candles_old_nonempty : candles_old <> [].
Proof. intros H. apply (f_equal length) in H. vm_compute in H. discriminate. Qed.

Lemma quote_old_nonempty : quote_old <> [].
Proof. intros H. apply (f_equal length) in H. vm_compute in H. discriminate. Qed.

Lemma fix1_literal s dotall :
  re_sub old_func new_func s dotall = Some (str_replace s old_function new_func).
Proof.
  apply re_sub_literal;
    [apply old_func_denotes | apply new_func_template | apply old_function_nonempty].
Qed.

(** Fix 1 never leaves the modelled fragment. *)
Lemma fix1_defined s : is_Some (re_sub old_func new_func s DOTALL).
Proof. rewrite fix1_literal. eauto. Qed.

Lemma apply_fixes_content_eq s :
  apply_fixes_content s =
  Some (str_replace
          (str_replace (str_replace s old_function new_func)
             candles_old candles_new)
          quote_old quote_new).
Proof. unfold apply_fixes_content. by rewrite fix1_literal. Qed.

(** The three steps as [Replaced] facts. *)
Lemma fix1_Replaced s :
  Replaced old_function new_func s (str_replace s old_function new_func).
Proof. apply str_replace_Replaced, old_function_nonempty. Qed.

Lemma fix2_Replaced s :
  Replaced candles_old candles_new s (str_replace s candles_old candles_new).
Proof. apply str_replace_Replaced, candles_old_nonempty. Qed.

Lemma fix3_Replaced s :
  Replaced quote_old quote_new s (str_replace s quote_old quote_new).
Proof. apply str_replace_Replaced, quote_old_nonempty. Qed.

(** Which of the six texts share no position with which. *)
Lemma overlaps :
  overlap_free old_function new_func = true /\
  overlap_free candles_old candles_new = true /\
  overlap_free quote_old quote_new = true /\
  overlap_free old_function candles_old = true /\
  overlap_free old_function quote_old = true /\
  overlap_free candles_old quote_old = true /\
  overlap_free new_func candles_old = true /\
  overlap_free new_func quote_old = true /\
  overlap_free candles_new quote_old = true /\
  overlap_free candles_new old_function = true /\
  overlap_free quote_new old_function = true /\
  overlap_free quote_new candles_old = true.
Proof. vm_compute. repeat split. Qed.

Lemma overlap_free_sym p q : overlap_free p q = overlap_free q p.
Proof. unfold overlap_free. apply Bool.andb_comm. Qed.

Section Steps.
Variables old new : list N.
Hypothesis old_nonempty : old <> [].
Implicit Types s t p : list N.

(** Occurrences of [p] survive the replacement of [old]. *)
Lemma contains_kept s t p :
  overlap_free old p = true ->
  Replaced old new s t -> contains s p = true -> contains t p = true.
Proof.
  intros Ho H%Replaced_Patched.
  apply (Patched_contains [(old, new)]); [by repeat constructor | done].
Qed.

(** The replacement by [new] brings no occurrence of [p]. *)
Lemma contains_not_created s t p :
  overlap_free new p = true ->
  Replaced old new s t -> contains s p = false -> contains t p = false.
Proof.
  intros Ho H%Replaced_Patched Hs.
  destruct (contains t p) eqn:Ht; [|done].
  apply (Patched_contains_back [(old, new)] s t p) in Ht;
    [congruence | by repeat constructor | done].
Qed.

Lemma contains_preserved s t p :
  overlap_free old p = true -> overlap_free new p = true ->
  Replaced old new s t -> contains t p = contains s p.
Proof.
  intros Ho Hn H. destruct (contains s p) eqn:Hs.
  - by eapply contains_kept.
  - by eapply contains_not_created.
Qed.

(** A step either finds nothing and changes nothing, or makes the text
    longer. *)
Lemma Replaced_step_cases s t :
  length old < length new ->
  Replaced old new s t ->
  (contains s old = false /\ t = s) \/
  (contains s old = true /\ length s < length t).
Proof.
  intros Hl H. destruct (contains s old) eqn:Hs.
  - right. split; [done|]. by eapply Replaced_longer.
  - left. split; [done|]. by eapply Replaced_absent.
Qed.

End Steps.

Lemma lengths_grow :
  length old_function < length new_func /\
  length candles_old < length candles_new /\
  length quote_old < length quote_new.
Proof. vm_compute. lia. Qed.

(** ** The transformation of the text *)

(** C1. For every input text, the transformation computed by
    [apply_fixes] is the composition of three steps applied in order to
    the evolving text: the replacement of every old definition of
    [getCachedData] (signature to closing brace) by the new function
    body, then the literal replacement that gives the
    [getCachedData<PricePoint[]>(cacheKey)] call the second argument
    [true], then the same for the
    [getCachedData<{ price: number; change: number; changePercent: number }>(cacheKey)]
    call.  Each step is stated with the relation [Replaced], which
    determines its result, so the result of the three steps is the one
    text [apply_fixes_content] returns. *)
Theorem apply_fixes_three_steps_in_order (content : list N) :
  exists t1 t2 t3,
    three_steps_in_order content t1 t2 t3 /\
    apply_fixes_content content = Some t3 /\
    forall u1 u2 u3, three_steps_in_order content u1 u2 u3 -> u3 = t3.
Proof.
  assert (E : cached_data_statement call_candles = candles_old
              /\ cached_data_statement (with_true call_candles) = candles_new
              /\ cached_data_statement call_quote = quote_old
              /\ cached_data_statement (with_true call_quote) = quote_new)
    by (vm_compute; repeat split).
  destruct E as (E1 & E2 & E3 & E4).
  unfold three_steps_in_order. rewrite E1, E2, E3, E4.
  exists (str_replace content old_function new_func).
  exists (str_replace (str_replace content old_function new_func)
            candles_old candles_new).
  eexists. split; [|split; [apply apply_fixes_content_eq|]].
  - split; [apply fix1_Replaced|]. split; [apply fix2_Replaced|].
    apply fix3_Replaced.
  - intros u1 u2 u3 (H1 & H2 & H3).
    assert (u1 = str_replace content old_function new_func) as ->.
    { eapply Replaced_fun;
        [apply old_function_nonempty | exact H1 | apply fix1_Replaced]. }
    assert (u2 = str_replace (str_replace content old_function new_func)
                   candles_old candles_new) as ->.
    { eapply Replaced_fun;
        [apply candles_old_nonempty | exact H2 | apply fix2_Replaced]. }
    eapply Replaced_fun;
      [apply quote_old_nonempty | exact H3 | apply fix3_Replaced].
Qed.

(** The model does tell the two modes apart where a pattern has an
    unescaped dot. *)
Example dot_needs_dotall :
  re_sub (py "a.b") (py "X") [97; 10; 98]%N true = Some (py "X") /\
  re_sub (py "a.b") (py "X") [97; 10; 98]%N false = Some [97; 10; 98]%N.
Proof. vm_compute. split; reflexivity. Qed.

(** C8, as stated, fails: on the old function definition the substitution
    without the dot-matches-all flag is no silent no-op; it replaces the
    definition, as the run with the flag does. *)
Lemma fix1_without_dotall_replaces :
  re_sub old_func new_func old_function false = Some new_func /\
  re_sub old_func new_func old_function false <> Some old_function /\
  re_sub old_func new_func old_function false =
  re_sub old_func new_func old_function DOTALL.
Proof. vm_compute. repeat split; discriminate. Qed.

(** C8, amended.  The pattern of Fix 1 holds no unescaped dot (all its
    special characters are escaped, so it denotes the one text
    [old_function]); the dot-matches-all flag therefore changes nothing:
    with and without it the substitution gives the same text on every
    input, the literal replacement of [old_function] by [new_func]. *)
Theorem fix1_dotall_irrelevant (s : list N) :
  re_parse old_func = Some (Lit <$> old_function) /\
  re_sub old_func new_func s false = re_sub old_func new_func s DOTALL /\
  re_sub old_func new_func s DOTALL =
  Some (str_replace s old_function new_func).
Proof.
  split; [apply old_func_denotes|]. by rewrite !fix1_literal.
Qed.

Lemma scan_count old new fuel s :
  old <> [] -> length s <= fuel ->
  length (scan (fun t => startswith t old) (length old) new fuel s)
  + count_hits old fuel s * length old
  = length s + count_hits old fuel s * length new.
Proof.
  intros Hne. revert s. induction fuel as [|fuel IH]; intros s Hlen.
  - simpl. lia.
  - destruct s as [|c s]; [done|].
    cbn [scan count_hits]. destruct (startswith (c :: s) old) eqn:Hs.
    + apply startswith_spec in Hs as [k Hk]. rewrite Hk, drop_app_length.
      assert (Hk' : length k <= fuel).
      { apply (f_equal length) in Hk. rewrite length_app in Hk.
        destruct old; [done|]. simpl in Hlen, Hk. lia. }
      specialize (IH k Hk'). rewrite !length_app. lia.
    + simpl in Hlen. specialize (IH s ltac:(lia)). simpl. lia.
Qed.

Lemma str_replace_count s old new :
  old <> [] ->
  length (str_replace s old new) + str_count s old * length old
  = length s + str_count s old * length new.
Proof.
  intros Hne. rewrite str_replace_scan by done. by apply scan_count.
Qed.

(** Two occurrences in a row: both are replaced. *)
Example both_candles_calls :
  str_replace (candles_old ++ candles_old) candles_old candles_new
  = candles_new ++ candles_new.
Proof. vm_compute. reflexivity. Qed.

(** C10. Each of the three steps replaces every occurrence of its pattern
    (taken from the left, not overlapping), not only the first: the
    result stands in the relation [Replaced] to the input, holds no
    occurrence of the pattern any more, and its length accounts for
    every one of the [str_count] occurrences. *)
Theorem every_occurrence_replaced (s : list N) :
  (exists t,
      re_sub old_func new_func s DOTALL = Some t /\
      Replaced old_function new_func s t /\
      contains t old_function = false /\
      length t + str_count s old_function * length old_function
      = length s + str_count s old_function * length new_func) /\
  (let t := str_replace s candles_old candles_new in
   Replaced candles_old candles_new s t /\
   contains t candles_old = false /\
   length t + str_count s candles_old * length candles_old
   = length s + str_count s candles_old * length candles_new) /\
  (let t := str_replace s quote_old quote_new in
   Replaced quote_old quote_new s t /\
   contains t quote_old = false /\
   length t + str_count s quote_old * length quote_old
   = length s + str_count s quote_old * length quote_new).
Proof.
  destruct overlaps as (O1 & O2 & O3 & _).
  split; [|split].
  - exists (str_replace s old_function new_func).
    split; [apply fix1_literal|]. split; [apply fix1_Replaced|]. split.
    + eapply Replaced_no_old;
        [apply old_function_nonempty | done | apply fix1_Replaced].
    + apply str_replace_count, old_function_nonempty.
  - cbv zeta. split; [apply fix2_Replaced|]. split.
    + eapply Replaced_no_old;
        [apply candles_old_nonempty | done | apply fix2_Replaced].
    + apply str_replace_count, candles_old_nonempty.
  - cbv zeta. split; [apply fix3_Replaced|]. split.
    + eapply Replaced_no_old;
        [apply quote_old_nonempty | done | apply fix3_Replaced].
    + apply str_replace_count, quote_old_nonempty.
Qed.

Ltac length_clash :=
  match goal with
  | E : ?a = ?b |- _ => apply (f_equal length) in E; lia
  end.

(** C4. A step whose matcher does not occur in the current text leaves it
    unchanged, and a step whose matcher occurs alters it; the final text
    differs from the input exactly when some step matched, which is
    exactly when one of the three old patterns occurs in the input; when
    the old function is absent, either call-site statement alone makes
    the text change. *)
Theorem changed_iff_some_step_matched (s : list N) :
  exists t1,
    re_sub old_func new_func s DOTALL = Some t1 /\
    let t2 := str_replace t1 candles_old candles_new in
    let t3 := str_replace t2 quote_old quote_new in
    apply_fixes_content s = Some t3 /\
    (t1 = s <-> contains s old_function = false) /\
    (t2 = t1 <-> contains t1 candles_old = false) /\
    (t3 = t2 <-> contains t2 quote_old = false) /\
    (t3 <> s <->
       contains s old_function = true \/
       contains t1 candles_old = true \/
       contains t2 quote_old = true) /\
    (t3 <> s <->
       contains s old_function = true \/
       contains s candles_old = true \/
       contains s quote_old = true) /\
    (contains s old_function = false ->
     contains s candles_old = true \/ contains s quote_old = true ->
     t3 <> s).
Proof.
  exists (str_replace s old_function new_func).
  split; [apply fix1_literal|]. cbv zeta.
  split; [apply apply_fixes_content_eq|].
  destruct overlaps as (_ & _ & _ & O4 & O5 & O6 & O7 & O8 & O9 & _).
  destruct lengths_grow as (L1 & L2 & L3).
  pose proof (fix1_Replaced s) as H1.
  set (t1 := str_replace s old_function new_func) in *.
  pose proof (fix2_Replaced t1) as H2.
  set (t2 := str_replace t1 candles_old candles_new) in *.
  pose proof (fix3_Replaced t2) as H3.
  set (t3 := str_replace t2 quote_old quote_new) in *.
  assert (P2 : contains t1 candles_old = contains s candles_old)
    by (by apply (contains_preserved old_function new_func)).
  assert (P3 : contains t2 quote_old = contains s quote_old).
  { rewrite (contains_preserved candles_old candles_new t1 t2) by done.
    by apply (contains_preserved old_function new_func). }
  apply Replaced_step_cases in H1; [|apply old_function_nonempty|done].
  apply Replaced_step_cases in H2; [|apply candles_old_nonempty|done].
  apply Replaced_step_cases in H3; [|apply quote_old_nonempty|done].
  rewrite <- P2, <- P3. clear P2 P3.
  clearbody t1 t2 t3.
  destruct H1 as [[C1 E1]|[C1 E1]], H2 as [[C2 E2]|[C2 E2]],
    H3 as [[C3 E3]|[C3 E3]]; subst;
    rewrite ?C1, ?C2, ?C3;
    repeat match goal with
           | |- _ /\ _ => split
           | |- _ <-> _ => split
           end.
  all: try (intros _; exact eq_refl).
  all: try (intros H; first [discriminate H | length_clash]).
  all: try (intros H; first
    [ exfalso; apply H; exact eq_refl
    | left; exact eq_refl
    | right; left; exact eq_refl
    | right; right; exact eq_refl ]).
  all: try (intros [H|[H|H]]; first [discriminate H | intros E; length_clash]).
  all: try (intros _ [H|H]; first [discriminate H | intros E; length_clash]).
Qed.

(** C4 at a text that holds a candles call only. *)
Lemma changed_iff_some_step_matched_witness :
  exists t1,
    re_sub old_func new_func candles_old DOTALL = Some t1 /\
    t1 = candles_old /\
    str_replace (str_replace t1 candles_old candles_new) quote_old quote_new
    <> candles_old.
Proof.
  destruct (changed_iff_some_step_matched candles_old)
    as (t1 & Ht1 & _ & Hno & _ & _ & _ & _ & Hch).
  exists t1. split; [done|]. split.
  - apply Hno. vm_compute. reflexivity.
  - apply Hch; [vm_compute; reflexivity | left; vm_compute; reflexivity].
Defined.

(** The output holds none of the three old patterns and is a fixed point
    of the transformation. *)
Lemma output_is_fixed_point (s t : list N) :
  apply_fixes_content s = Some t ->
  contains t old_function = false /\
  contains t candles_old = false /\
  contains t quote_old = false /\
  apply_fixes_content t = Some t.
Proof.
  rewrite apply_fixes_content_eq. intros Ht.
  apply (inj Some) in Ht. subst t.
  destruct overlaps
    as (O1 & O2 & O3 & _ & _ & _ & _ & _ & _ & O10 & O11 & O12).
  pose proof (fix1_Replaced s) as H1.
  set (t1 := str_replace s old_function new_func) in *.
  pose proof (fix2_Replaced t1) as H2.
  set (t2 := str_replace t1 candles_old candles_new) in *.
  pose proof (fix3_Replaced t2) as H3.
  set (t3 := str_replace t2 quote_old quote_new) in *.
  assert (N1 : contains t3 old_function = false).
  { apply (contains_not_created quote_old quote_new t2); [done..|].
    apply (contains_not_created candles_old candles_new t1); [done..|].
    eapply Replaced_no_old; [apply old_function_nonempty | done | exact H1]. }
  assert (N2 : contains t3 candles_old = false).
  { apply (contains_not_created quote_old quote_new t2); [done..|].
    eapply Replaced_no_old; [apply candles_old_nonempty | done | exact H2]. }
  assert (N3 : contains t3 quote_old = false).
  { eapply Replaced_no_old; [apply quote_old_nonempty | done | exact H3]. }
  repeat (split; [done|]).
  rewrite apply_fixes_content_eq. clearbody t3.
  rewrite (Replaced_absent _ _ _ _ (fix1_Replaced t3) N1).
  rewrite (Replaced_absent _ _ _ _ (fix2_Replaced t3) N2).
  by rewrite (Replaced_absent _ _ _ _ (fix3_Replaced t3) N3).
Qed.

(** C5. The output of the transformation holds none of the three old
    patterns, so a second application changes nothing: every output is a
    fixed point, whether or not the first application changed the text
    (a second run finds content equal to original). *)
Theorem second_application_changes_nothing (s : list N) :
  exists t,
    apply_fixes_content s = Some t /\
    contains t old_function = false /\
    contains t candles_old = false /\
    contains t quote_old = false /\
    apply_fixes_content t = Some t.
Proof.
  eexists. split; [apply apply_fixes_content_eq|].
  apply (output_is_fixed_point s), apply_fixes_content_eq.
Qed.

Lemma fixes_Patched s :
  Patched fixes s
    (str_replace
       (str_replace (str_replace s old_function new_func)
          candles_old candles_new)
       quote_old quote_new).
Proof.
  destruct overlaps as (_ & _ & _ & _ & _ & _ & O7 & O8 & O9 & _).
  pose proof (Replaced_Patched _ _ _ _ (fix1_Replaced s)) as H1.
  set (t1 := str_replace s old_function new_func) in *.
  pose proof (Replaced_Patched _ _ _ _ (fix2_Replaced t1)) as H2.
  set (t2 := str_replace t1 candles_old candles_new) in *.
  pose proof (Replaced_Patched _ _ _ _ (fix3_Replaced t2)) as H3.
  set (t3 := str_replace t2 quote_old quote_new) in *.
  clearbody t1 t2 t3.
  assert (H12 : Patched [(old_function, new_func); (candles_old, candles_new)]
                  s t2).
  { apply (Patched_trans [(old_function, new_func)]
             [(candles_old, candles_new)] s t1 t2); [| | |done..].
    - repeat constructor. apply old_function_nonempty.
    - repeat constructor. apply candles_old_nonempty.
    - by repeat constructor. }
  apply (Patched_trans [(old_function, new_func); (candles_old, candles_new)]
           [(quote_old, quote_new)] s t2 t3); [| | |done..].
  - repeat constructor; [apply old_function_nonempty|apply candles_old_nonempty].
  - repeat constructor. apply quote_old_nonempty.
  - by repeat constructor.
Qed.

(** C6. Where the input holds the old function and both call-site
    statements, the output holds the new function and both new
    statements, and outside the replaced spans it is the input, character
    for character ([Patched fixes]). *)
Theorem old_patterns_become_new_rest_untouched (s : list N) :
  contains s old_function = true ->
  contains s candles_old = true ->
  contains s quote_old = true ->
  exists t,
    apply_fixes_content s = Some t /\
    contains t new_func = true /\
    contains t candles_new = true /\
    contains t quote_new = true /\
    Patched fixes s t.
Proof.
  intros Hf Hc Hq.
  destruct overlaps as (_ & _ & _ & O4 & O5 & O6 & O7 & O8 & O9 & _).
  rewrite overlap_free_sym in O7, O8, O9.
  eexists. split; [apply apply_fixes_content_eq|].
  split; [|split; [|split; [|apply fixes_Patched]]].
  - apply (contains_kept quote_old quote_new _ _ _ O8 (fix3_Replaced _)).
    apply (contains_kept candles_old candles_new _ _ _ O7 (fix2_Replaced _)).
    apply (Replaced_contains_new old_function new_func
             old_function_nonempty _ _ (fix1_Replaced _) Hf).
  - apply (contains_kept quote_old quote_new _ _ _ O9 (fix3_Replaced _)).
    apply (Replaced_contains_new candles_old candles_new
             candles_old_nonempty _ _ (fix2_Replaced _)).
    apply (contains_kept old_function new_func _ _ _ O4 (fix1_Replaced _) Hc).
  - apply (Replaced_contains_new quote_old quote_new
             quote_old_nonempty _ _ (fix3_Replaced _)).
    apply (contains_kept candles_old candles_new _ _ _ O6 (fix2_Replaced _)).
    apply (contains_kept old_function new_func _ _ _ O5 (fix1_Replaced _) Hq).
Qed.

(** C6 at the minimal file. *)
Lemma old_patterns_become_new_rest_untouched_witness :
  (contains minimal_file old_function = true /\
   contains minimal_file candles_old = true /\
   contains minimal_file quote_old = true) /\
  exists t,
    apply_fixes_content minimal_file = Some t /\
    contains t new_func = true /\
    contains t candles_new = true /\
    contains t quote_new = true /\
    Patched fixes minimal_file t.
Proof.
  split; [vm_compute; repeat split|].
  apply (old_patterns_become_new_rest_untouched minimal_file);
    vm_compute; reflexivity.
Defined.

(** ** The process *)

Section ProcessFacts.
Variable decode : list N -> option (list N).
Variable encode : list N -> list N.

Lemma print_ascii line w :
  has_non_ascii line = false ->
  print line w = (inr tt, set_stdout (stdout w ++ [line]) w).
Proof.
  intros H. unfold print. by rewrite H, Bool.orb_true_r.
Qed.

Lemma print_symbol line w :
  has_non_ascii line = true ->
  print line w =
  if stdout_symbols w
  then (inr tt, set_stdout (stdout w ++ [line]) w)
  else (inl UnicodeEncodeError, w).
Proof.
  intros H. unfold print. by rewrite H, Bool.orb_false_r.
Qed.

Lemma read_text_set_stdout path out w :
  read_text decode path (set_stdout out w)
  = ((read_text decode path w).1, set_stdout out w).
Proof.
  unfold read_text. cbn [fs set_stdout].
  destruct (fs w !! path) as [f|]; [|reflexivity].
  destruct (f_readable f); [|reflexivity].
  destruct (decode (f_bytes f)); reflexivity.
Qed.

Lemma write_text_set_stdout path t out w :
  write_text encode path t (set_stdout out w)
  = ((write_text encode path t w).1,
     set_stdout out (write_text encode path t w).2).
Proof.
  unfold write_text. cbn [fs write_fault set_stdout].
  destruct (f_writable _); [|reflexivity].
  destruct (fails _ _); reflexivity.
Qed.

(** Writing changes the file system only. *)
Lemma write_text_world path t w :
  (write_text encode path t w).2
  = set_fs (fs (write_text encode path t w).2) w.
Proof.
  unfold write_text. destruct (f_writable _); [|by destruct w].
  destruct (fails _ _); reflexivity.
Qed.

Lemma read_text_raises path w e :
  (read_text decode path w).1 = inl e -> is_Exception e = true.
Proof.
  unfold read_text. destruct (fs w !! path) as [f|]; [|by intros [= <-]].
  destruct (f_readable f); [|by intros [= <-]].
  destruct (decode (f_bytes f)); [done | by intros [= <-]].
Qed.

Lemma write_text_raises path t w e :
  (write_text encode path t w).1 = inl e -> is_Exception e = true.
Proof.
  unfold write_text. destruct (f_writable _); [|by intros [= <-]].
  destruct (fails _ _); [by intros [= <-] | done].
Qed.

Lemma print_ascii_set line out w :
  has_non_ascii line = false ->
  print line (set_stdout out w) = (inr tt, set_stdout (out ++ [line]) w).
Proof. intros H. by rewrite print_ascii. Qed.

Lemma print_symbol_set line out w :
  has_non_ascii line = true ->
  print line (set_stdout out w) =
  if stdout_symbols w
  then (inr tt, set_stdout (out ++ [line]) w)
  else (inl UnicodeEncodeError, set_stdout out w).
Proof. intros H. by rewrite print_symbol. Qed.

Lemma write_text_symbols path t w :
  stdout_symbols (write_text encode path t w).2 = stdout_symbols w.
Proof. by rewrite write_text_world. Qed.

Lemma write_text_error_text path t w :
  error_text (write_text encode path t w).2 = error_text w.
Proof. by rewrite write_text_world. Qed.

Lemma lines_ascii :
  has_non_ascii "Reading file..." = false /\
  has_non_ascii "Applying Fix 1: getCachedData function..." = false /\
  has_non_ascii "Applying Fix 2: getStockCandles..." = false /\
  has_non_ascii "Applying Fix 3 & 4: getStockQuote..." = false /\
  has_non_ascii "Writing updated file..." = false /\
  has_non_ascii (String (Ascii.ascii_of_nat 10) "Next steps:") = false /\
  has_non_ascii "1. cd worker" = false /\
  has_non_ascii "2. npm run deploy" = false.
Proof. repeat split. Qed.

Lemma lines_symbol :
  has_non_ascii "❌ No changes applied - pattern matching failed!" = true /\
  has_non_ascii "✅ Successfully applied all cache fixes!" = true /\
  forall message, has_non_ascii ("❌ Error: " +:+ message) = true.
Proof. repeat split. Qed.

(** What [apply_fixes] returns and the world it leaves. *)
Lemma apply_fixes_explicit w :
  apply_fixes decode encode w =
  match (read_text decode FILE_PATH w).1 with
  | inl e => (inl e, set_stdout (stdout w ++ ["Reading file..."]) w)
  | inr c =>
      match apply_fixes_content c with
      | None =>
          (inl re_error,
           set_stdout (stdout w ++ ["Reading file...";
                         "Applying Fix 1: getCachedData function..."]) w)
      | Some t =>
          if bool_decide (t = c)
          then
            if stdout_symbols w
            then (inr false,
                  set_stdout (stdout w ++ lines_steps ++ [line_no_changes]) w)
            else (inl UnicodeEncodeError,
                  set_stdout (stdout w ++ lines_steps) w)
          else
            let r := write_text encode FILE_PATH t w in
            match r.1 with
            | inl e =>
                (inl e,
                 set_stdout (stdout w ++ lines_steps ++ [line_writing]) r.2)
            | inr _ =>
                if stdout_symbols w
                then (inr true,
                      set_stdout
                        (stdout w ++ lines_steps ++ line_writing :: lines_success)
                        r.2)
                else (inl UnicodeEncodeError,
                      set_stdout (stdout w ++ lines_steps ++ [line_writing]) r.2)
            end
      end
  end.
Proof.
  destruct lines_ascii as (A1 & A2 & A3 & A4 & A5 & A6 & A7 & A8).
  destruct lines_symbol as (S1 & S2 & _).
  unfold apply_fixes, bind, of_re, ret.
  rewrite (print_ascii _ w A1). rewrite read_text_set_stdout.
  destruct ((read_text decode FILE_PATH w).1) as [e|c]; [reflexivity|].
  rewrite (print_ascii_set _ _ _ A2). cbv beta iota.
  rewrite apply_fixes_content_eq, fix1_literal. cbv beta iota.
  rewrite (print_ascii_set _ _ _ A3). cbv beta iota.
  rewrite (print_ascii_set _ _ _ A4). cbv beta iota.
  destruct (bool_decide _).
  - rewrite (print_symbol_set _ _ _ S1).
    destruct (stdout_symbols w); cbv beta iota; rewrite <- ?app_assoc;
      reflexivity.
  - rewrite (print_ascii_set _ _ _ A5). cbv beta iota zeta.
    rewrite write_text_set_stdout.
    destruct ((write_text encode FILE_PATH _ w).1) as [e|[]];
      cbv beta iota; [rewrite <- ?app_assoc; reflexivity|].
    rewrite (print_symbol_set _ _ _ S2), write_text_symbols.
    destruct (stdout_symbols w); cbv beta iota;
      [|rewrite <- ?app_assoc; reflexivity].
    rewrite (print_ascii_set _ _ _ A6). cbv beta iota.
    rewrite (print_ascii_set _ _ _ A7). cbv beta iota.
    rewrite (print_ascii_set _ _ _ A8). cbv beta iota.
    rewrite <- ?app_assoc. reflexivity.
Qed.

(** The four ways a run ends, on a console with the symbols and on one
    without: the status, the world and whether the module ends in an
    uncaught exception. *)
Lemma run_explicit w :
  crashes decode encode w = negb (stdout_symbols w) /\
  ((exists e, (read_text decode FILE_PATH w).1 = inl e /\
      run decode encode w
      = (1%Z,
         set_stdout
           (stdout w ++ "Reading file..."
              :: (if stdout_symbols w then [line_error w e] else [])) w)) \/
   (exists c, (read_text decode FILE_PATH w).1 = inr c /\
      apply_fixes_content c = Some c /\
      run decode encode w
      = (1%Z,
         set_stdout
           (stdout w ++ lines_steps
              ++ (if stdout_symbols w then [line_no_changes] else [])) w)) \/
   (exists c t, (read_text decode FILE_PATH w).1 = inr c /\
      apply_fixes_content c = Some t /\ t <> c /\
      (write_text encode FILE_PATH t w).1 = inr tt /\
      run decode encode w
      = ((if stdout_symbols w then 0 else 1)%Z,
         set_stdout
           (stdout w ++ lines_steps ++ line_writing
              :: (if stdout_symbols w then lines_success else []))
           (write_text encode FILE_PATH t w).2)) \/
   (exists c t e, (read_text decode FILE_PATH w).1 = inr c /\
      apply_fixes_content c = Some t /\ t <> c /\
      (write_text encode FILE_PATH t w).1 = inl e /\
      run decode encode w
      = (1%Z,
         set_stdout
           (stdout w ++ lines_steps ++ line_writing
              :: (if stdout_symbols w then [line_error w e] else []))
           (write_text encode FILE_PATH t w).2))).
Proof.
  destruct lines_symbol as (_ & _ & S3).
  unfold crashes, run, main, try_except_Exception, bind, str, exit, raise,
    line_error.
  rewrite apply_fixes_explicit.
  destruct ((read_text decode FILE_PATH w).1) as [e|c] eqn:Hr.
  - rewrite (read_text_raises _ _ _ Hr). cbn [error_text set_stdout].
    rewrite (print_symbol_set _ _ _ (S3 _)).
    destruct (stdout_symbols w); cbv beta iota;
      (split; [reflexivity|]); left; exists e;
      (split; [reflexivity|]); rewrite <- ?app_assoc; reflexivity.
  - destruct (apply_fixes_content c) as [t|] eqn:Ht;
      [|by rewrite apply_fixes_content_eq in Ht].
    destruct (bool_decide (t = c)) eqn:Hd.
    + apply bool_decide_eq_true in Hd as ->.
      destruct (stdout_symbols w) eqn:Hs; cbn [is_Exception].
      * split; [reflexivity|]. right. left. exists c.
        repeat (split; [assumption || reflexivity|]). reflexivity.
      * cbn [error_text set_stdout].
        rewrite (print_symbol_set _ _ _ (S3 _)), Hs. cbv beta iota.
        split; [reflexivity|]. right. left. exists c.
        repeat (split; [assumption || reflexivity|]).
        rewrite app_nil_r. reflexivity.
    + apply bool_decide_eq_false in Hd. cbv zeta.
      destruct ((write_text encode FILE_PATH t w).1) as [e|[]] eqn:Hw.
      * rewrite (write_text_raises _ _ _ _ Hw).
        cbn [error_text set_stdout]. rewrite write_text_error_text.
        rewrite (print_symbol_set _ _ _ (S3 _)), write_text_symbols.
        destruct (stdout_symbols w); cbv beta iota;
          (split; [reflexivity|]); do 3 right; exists c, t, e;
          repeat (split; [assumption || reflexivity|]);
          rewrite <- ?app_assoc; reflexivity.
      * destruct (stdout_symbols w) eqn:Hs; cbn [is_Exception].
        -- split; [reflexivity|]. do 2 right. left. exists c, t.
           repeat (split; [assumption || reflexivity|]). reflexivity.
        -- cbn [error_text set_stdout]. rewrite write_text_error_text.
           rewrite (print_symbol_set _ _ _ (S3 _)), write_text_symbols, Hs.
           cbv beta iota. split; [reflexivity|]. do 2 right. left.
           exists c, t. repeat (split; [assumption || reflexivity|]).
           reflexivity.
Qed.

(** The same, the console left out. *)
Lemma run_cases w :
  (exists e, (read_text decode FILE_PATH w).1 = inl e /\
     (run decode encode w).1 = 1%Z /\ fs (run decode encode w).2 = fs w) \/
  (exists c, (read_text decode FILE_PATH w).1 = inr c /\
     apply_fixes_content c = Some c /\
     (run decode encode w).1 = 1%Z /\ fs (run decode encode w).2 = fs w) \/
  (exists c t, (read_text decode FILE_PATH w).1 = inr c /\
     apply_fixes_content c = Some t /\ t <> c /\
     (write_text encode FILE_PATH t w).1 = inr tt /\
     (run decode encode w).1 = (if stdout_symbols w then 0 else 1)%Z /\
     fs (run decode encode w).2 = fs (write_text encode FILE_PATH t w).2) \/
  (exists c t e, (read_text decode FILE_PATH w).1 = inr c /\
     apply_fixes_content c = Some t /\ t <> c /\
     (write_text encode FILE_PATH t w).1 = inl e /\
     (run decode encode w).1 = 1%Z /\
     fs (run decode encode w).2 = fs (write_text encode FILE_PATH t w).2).
Proof.
  destruct (run_explicit w) as [_ H].
  destruct H as [(e & Hr & ->)|[(c & Hr & Ht & ->)|
    [(c & t & Hr & Ht & Hne & Hw & ->)|(c & t & e & Hr & Ht & Hne & Hw & ->)]]];
    cbn [fst snd fs set_stdout].
  - left. exists e. repeat (split; [assumption || reflexivity|]). reflexivity.
  - right. left. exists c.
    repeat (split; [assumption || reflexivity|]). reflexivity.
  - do 2 right. left. exists c, t.
    repeat (split; [assumption || reflexivity|]). reflexivity.
  - do 3 right. exists c, t, e.
    repeat (split; [assumption || reflexivity|]). reflexivity.
Qed.

(** A write that returned left the whole encoded text in the file. *)
Lemma write_text_content path t w :
  (write_text encode path t w).1 = inr tt ->
  f_bytes <$> fs (write_text encode path t w).2 !! path = Some (encode t).
Proof.
  unfold write_text. destruct (f_writable _); [|discriminate].
  destruct (fails _ _) eqn:Hf; [discriminate|]. intros _.
  cbn [snd fs set_fs]. rewrite lookup_insert_eq. cbn [fmap option_fmap option_map f_bytes].
  f_equal. unfold written, fails in *.
  destruct (write_fault w) as [n|]; [|reflexivity].
  apply Nat.ltb_ge in Hf. by apply take_ge.
Qed.

Lemma write_text_not_writable path t w f :
  fs w !! path = Some f -> f_writable f = false ->
  write_text encode path t w = (inl PermissionError, w).
Proof.
  intros Hf Hw. unfold write_text. rewrite Hf. cbv [from_option id].
  by rewrite Hw.
Qed.

Lemma write_text_other path path' t w :
  path' <> path ->
  fs (write_text encode path t w).2 !! path' = fs w !! path'.
Proof.
  intros Hp. unfold write_text. destruct (f_writable _); [|reflexivity].
  destruct (fails _ _); cbn [snd fs set_fs]; by rewrite lookup_insert_ne.
Qed.

(** What was written is what the next read finds. *)
Lemma read_after_write c t w :
  (read_text decode FILE_PATH w).1 = inr c ->
  (write_text encode FILE_PATH t w).1 = inr tt ->
  decode (encode t) = Some t ->
  (read_text decode FILE_PATH (write_text encode FILE_PATH t w).2).1 = inr t.
Proof.
  intros Hr Hw Hd. pose proof (write_text_content _ _ _ Hw) as Hc.
  revert Hr Hw Hc. unfold read_text, write_text.
  destruct (fs w !! FILE_PATH) as [f|] eqn:Hf; [|discriminate].
  cbv [from_option id]. destruct (f_readable f) eqn:Hfr; [|discriminate].
  destruct (f_writable f); [|discriminate].
  destruct (fails _ _); [discriminate|]. intros _ _.
  cbn [snd fs set_fs]. rewrite lookup_insert_eq.
  cbn [fmap option_fmap option_map f_bytes f_readable]. intros [= ->].
  by rewrite Hd.
Qed.

End ProcessFacts.

Section Process.
Variable decode : list N -> option (list N).
Variable encode : list N -> list N.

(** C2, amended.  On a console whose encoding has the two symbols the
    script prints, the exit status is 0 exactly when the transformed
    content differs from the original and was written back (the target
    file then holds the whole encoded new content), and the module ends by
    [SystemExit], every exception being caught.  On every console the
    status is 0 or 1, and it is 1 when no substitution changed the
    content and whenever reading, transforming or writing raises.  On a
    console without the symbols the status is never 0 and the module
    ends in an uncaught exception. *)
Theorem exit_status (w : World) :
  ((run decode encode w).1 = 0%Z \/ (run decode encode w).1 = 1%Z) /\
  (crashes decode encode w = false <-> stdout_symbols w = true) /\
  ((run decode encode w).1 = 0%Z <->
     stdout_symbols w = true /\
     exists c t,
       (read_text decode FILE_PATH w).1 = inr c /\
       apply_fixes_content c = Some t /\ t <> c /\
       (write_text encode FILE_PATH t w).1 = inr tt) /\
  ((run decode encode w).1 = 0%Z ->
     exists c t,
       (read_text decode FILE_PATH w).1 = inr c /\
       apply_fixes_content c = Some t /\ t <> c /\
       f_bytes <$> fs (run decode encode w).2 !! FILE_PATH
       = Some (encode t)) /\
  ((exists c, (read_text decode FILE_PATH w).1 = inr c /\
      apply_fixes_content c = Some c) ->
   (run decode encode w).1 = 1%Z) /\
  ((exists e, (read_text decode FILE_PATH w).1 = inl e) ->
   (run decode encode w).1 = 1%Z) /\
  ((exists c, (read_text decode FILE_PATH w).1 = inr c /\
      apply_fixes_content c = None) ->
   (run decode encode w).1 = 1%Z) /\
  ((exists c t e,
       (read_text decode FILE_PATH w).1 = inr c /\
       apply_fixes_content c = Some t /\ t <> c /\
       (write_text encode FILE_PATH t w).1 = inl e) ->
   (run decode encode w).1 = 1%Z).
Proof.
  destruct (run_explicit decode encode w) as [Hcr _].
  split; [|split].
  { destruct (run_cases decode encode w)
      as [(e & _ & -> & _)|[(c & _ & _ & -> & _)|
        [(c & t & _ & _ & _ & _ & -> & _)|(c & t & e & _ & _ & _ & _ & -> & _)]]];
      try (right; reflexivity).
    destruct (stdout_symbols w); [left|right]; reflexivity. }
  { rewrite Hcr. destruct (stdout_symbols w); split; intros H;
      first [reflexivity | discriminate H]. }
  destruct (run_cases decode encode w)
    as [(e & Hr & H1 & Hfs)|[(c & Hr & Ht & H1 & Hfs)|
      [(c & t & Hr & Ht & Hne & Hw & H1 & Hfs)|
       (c & t & e & Hr & Ht & Hne & Hw & H1 & Hfs)]]];
    rewrite H1.
  - repeat split; try reflexivity; try discriminate.
    all: try (intros (_ & c' & t' & Hr' & _); congruence).
  - repeat split; try reflexivity; try discriminate.
    all: try (intros (_ & c' & t' & Hr' & Ht' & Hne' & _)).
    all: assert (c' = c) as -> by congruence.
    all: exfalso; apply Hne'; congruence.
  - destruct (stdout_symbols w) eqn:Hs.
    + split; [split; [intros _; split; [reflexivity|by exists c, t]|reflexivity]|].
      split.
      { intros _. exists c, t. repeat (split; [assumption|]).
        rewrite Hfs. by apply write_text_content. }
      repeat split.
      * intros (c' & Hr' & Ht'). exfalso. apply Hne. congruence.
      * intros (e' & Hr'). congruence.
      * intros (c' & Hr' & Ht'). congruence.
      * intros (c' & t' & e' & Hr' & Ht' & _ & Hw').
        assert (c' = c) as -> by congruence.
        assert (t' = t) as -> by congruence. congruence.
    + repeat split; try reflexivity; try discriminate.
      intros [Hs' _]. discriminate Hs'.
  - repeat split; try reflexivity; try discriminate.
    intros (_ & c' & t' & Hr' & Ht' & _ & Hw').
    assert (c' = c) as -> by congruence.
    assert (t' = t) as -> by congruence. congruence.
Qed.

(** C3. When reading raises, when the transformation raises, or when no
    step changed the content, no file is touched: the file system after
    the run is the one before it. *)
Theorem file_untouched_without_change (w : World) :
  (exists e, (read_text decode FILE_PATH w).1 = inl e) \/
  (exists c, (read_text decode FILE_PATH w).1 = inr c /\
     (apply_fixes_content c = Some c \/ apply_fixes_content c = None)) ->
  fs (run decode encode w).2 = fs w.
Proof.
  intros Hpre.
  destruct (run_cases decode encode w)
    as [(e & Hr & _ & Hfs)|[(c & Hr & Ht & _ & Hfs)|
      [(c & t & Hr & Ht & Hne & _)|(c & t & e & Hr & Ht & Hne & _)]]];
    [assumption|assumption| |].
  all: exfalso; destruct Hpre as [[e' He']|(c' & Hc' & [Ht'|Ht'])];
    [congruence| |congruence].
  all: assert (c' = c) as -> by congruence.
  all: apply Hne; congruence.
Qed.

(** The file system changes only behind a successful read and a
    transformation that changed the content. *)
Lemma file_touched_only_after_change (w : World) :
  fs (run decode encode w).2 <> fs w ->
  exists c t,
    (read_text decode FILE_PATH w).1 = inr c /\
    apply_fixes_content c = Some t /\ t <> c /\
    fs (run decode encode w).2 = fs (write_text encode FILE_PATH t w).2.
Proof.
  intros Hfs'.
  destruct (run_cases decode encode w)
    as [(e & Hr & _ & Hfs)|[(c & Hr & Ht & _ & Hfs)|
      [(c & t & Hr & Ht & Hne & _ & _ & Hfs)|
       (c & t & e & Hr & Ht & Hne & _ & _ & Hfs)]]];
    [contradiction|contradiction| |].
  all: exists c, t; repeat (split; [assumption|]); assumption.
Qed.

(** The run touches the target path only. *)
Lemma other_files_untouched (w : World) (path : string) :
  path <> FILE_PATH ->
  fs (run decode encode w).2 !! path = fs w !! path.
Proof.
  intros Hp.
  destruct (run_cases decode encode w)
    as [(e & Hr & _ & ->)|[(c & Hr & Ht & _ & ->)|
      [(c & t & Hr & Ht & Hne & _ & _ & ->)|
       (c & t & e & Hr & Ht & Hne & _ & _ & ->)]]];
    [reflexivity|reflexivity| |]; by apply write_text_other.
Qed.

End Process.

(** C2, as stated, fails: on a console whose encoding lacks the symbols
    (cp1252, say) the content of the minimal file is changed and written
    back in full, yet the success line cannot be printed, the handler's own
    line cannot either, and the run ends with an uncaught exception and
    status 1. *)
Lemma written_but_status_1 :
  (write_text ascii_encode FILE_PATH minimal_file_patched
     (legacy_console (world_of minimal_file))).1 = inr tt /\
  f_bytes <$> fs (run ascii_decode ascii_encode
                    (legacy_console (world_of minimal_file))).2 !! FILE_PATH
  = Some minimal_file_patched /\
  (run ascii_decode ascii_encode (legacy_console (world_of minimal_file))).1
  = 1%Z /\
  crashes ascii_decode ascii_encode (legacy_console (world_of minimal_file))
  = true.
Proof. vm_compute. repeat split. Qed.

(** C2, amended, at the minimal file: the content changes and is written,
    the console has the symbols, the status is 0. *)
Lemma exit_status_witness :
  (run ascii_decode ascii_encode (world_of minimal_file)).1 = 0%Z.
Proof.
  apply (exit_status ascii_decode ascii_encode (world_of minimal_file)).
  split; [reflexivity|].
  exists minimal_file, minimal_file_patched.
  repeat split; try (vm_compute; reflexivity).
  intros H. apply (f_equal length) in H. vm_compute in H. discriminate.
Defined.

(** C3 where the target file is missing. *)
Lemma file_untouched_without_change_witness :
  (exists e, (read_text ascii_decode FILE_PATH no_file).1 = inl e) /\
  fs (run ascii_decode ascii_encode no_file).2 = fs no_file.
Proof.
  split; [by exists FileNotFoundError|].
  apply (file_untouched_without_change ascii_decode ascii_encode no_file).
  left. by exists FileNotFoundError.
Defined.

(** A read-only target file: the write raises, the status is 1 and the
    file keeps its bytes. *)
Example read_only_file :
  (run ascii_decode ascii_encode (read_only (world_of minimal_file))).1 = 1%Z /\
  fs (run ascii_decode ascii_encode (read_only (world_of minimal_file))).2
  = fs (read_only (world_of minimal_file)).
Proof. vm_compute. split; reflexivity. Qed.

(** A device fault in the final write: the status is 1 and the file is
    left with the bytes that went out. *)
Example fault_in_final_write :
  (run ascii_decode ascii_encode
     (device_limit 8 (world_of minimal_file))).1 = 1%Z /\
  f_bytes <$> fs (run ascii_decode ascii_encode
                    (device_limit 8 (world_of minimal_file))).2 !! FILE_PATH
  = Some (py "function").
Proof. vm_compute. split; reflexivity. Qed.

(** A device that takes all the bytes of the write does not fail it. *)
Example limit_beyond_the_write :
  (run ascii_decode ascii_encode
     (device_limit 5000 (world_of minimal_file))).1 = 0%Z.
Proof. vm_compute. reflexivity. Qed.

(** ** The concrete scenario *)

(** C7, as stated, fails: in a file that holds the old function and the
    two calls as the bare fragments
    [getCachedData<PricePoint[]>(cacheKey)] and
    [getCachedData<{ price: number; change: number; changePercent: number }>(cacheKey)],
    the run replaces the function and exits with 0, but neither call gets
    [true]: the literal replacements look for the whole statement
    [const cachedData = ...;]. *)
Lemma bare_calls_get_no_true :
  (run ascii_decode ascii_encode (world_of minimal_file_bare_calls)).1 = 0%Z /\
  exists f,
    fs (run ascii_decode ascii_encode (world_of minimal_file_bare_calls)).2
      !! FILE_PATH = Some f /\
    f_bytes f = new_func ++ [newline] ++ call_candles ++ [newline]
                ++ call_quote ++ [newline] /\
    contains (f_bytes f) (with_true call_candles) = false /\
    contains (f_bytes f) (with_true call_quote) = false.
Proof.
  split; [vm_compute; reflexivity|].
  eexists. split; [vm_compute; reflexivity|].
  cbn [f_bytes]. split; [reflexivity|]. split; vm_compute; reflexivity.
Qed.

(** C7, amended.  For a target file that decodes to the old function and
    the two call-site statements
    [const cachedData = getCachedData<...>(cacheKey);], one per line, on
    a device without fault, one run leaves the file with the encoding of:
    the new function, whose signature has the second parameter
    [ignoreExpiry: boolean = false] and in which the branch that returns
    the cached data when [ignoreExpiry] holds comes before the test of
    the time to live, and the two statements with [true] as second
    argument of the call.  The run exits with 0 exactly when the console
    has the symbols the script prints; on another console the file is
    patched all the same and the status is 1. *)
Theorem minimal_file_is_patched
    (decode : list N -> option (list N)) (encode : list N -> list N)
    (w : World) (f : file) :
  fs w !! FILE_PATH = Some f ->
  f_readable f = true ->
  f_writable f = true ->
  decode (f_bytes f) = Some minimal_file ->
  write_fault w = None ->
  ((run decode encode w).1 = 0%Z <-> stdout_symbols w = true) /\
  ((run decode encode w).1 = 1%Z <-> stdout_symbols w = false) /\
  fs (run decode encode w).2
  = <[FILE_PATH := File (encode minimal_file_patched) true true]> (fs w) /\
  minimal_file_patched
  = new_func ++ [newline]
    ++ cached_data_statement (with_true call_candles) ++ [newline]
    ++ cached_data_statement (with_true call_quote) ++ [newline] /\
  startswith new_func new_signature = true /\
  (exists i j,
      str_find new_func bypass_branch = Some i /\
      str_find new_func ttl_test = Some j /\ i < j).
Proof.
  intros Hf Hr Hw Hd Hwf.
  assert (Hread : (read_text decode FILE_PATH w).1 = inr minimal_file).
  { unfold read_text. by rewrite Hf, Hr, Hd. }
  assert (Hpatch : apply_fixes_content minimal_file = Some minimal_file_patched)
    by (vm_compute; reflexivity).
  assert (Hne : minimal_file_patched <> minimal_file).
  { intros H. apply (f_equal length) in H. vm_compute in H. discriminate. }
  assert (Hwrite : write_text encode FILE_PATH minimal_file_patched w
            = (inr tt,
               set_fs
                 (<[FILE_PATH := File (encode minimal_file_patched) true true]> (fs w))
                 w)).
  { unfold write_text. rewrite Hf. cbv [from_option id]. cbv zeta.
    by rewrite Hw, Hr, Hwf. }
  assert (Hrun : (run decode encode w).1
                 = (if stdout_symbols w then 0 else 1)%Z /\
                 fs (run decode encode w).2
                 = fs (write_text encode FILE_PATH minimal_file_patched w).2).
  { destruct (run_cases decode encode w)
      as [(e & Hr' & _)|[(c & Hr' & Ht & _)|
        [(c & t & Hr' & Ht & _ & _ & H1 & Hfs)|
         (c & t & e & Hr' & Ht & _ & He & _)]]].
    - congruence.
    - assert (c = minimal_file) as -> by congruence. congruence.
    - assert (c = minimal_file) as -> by congruence.
      assert (t = minimal_file_patched) as -> by congruence.
      split; assumption.
    - assert (c = minimal_file) as -> by congruence.
      assert (t = minimal_file_patched) as -> by congruence.
      rewrite Hwrite in He. discriminate He. }
  destruct Hrun as [H0 Hfs]. rewrite Hwrite in Hfs. rewrite H0.
  split; [destruct (stdout_symbols w); split; intros H;
            first [reflexivity | discriminate H]|].
  split; [destruct (stdout_symbols w); split; intros H;
            first [reflexivity | discriminate H]|].
  split; [exact Hfs|].
  split; [vm_compute; reflexivity|]. split; [vm_compute; reflexivity|].
  exists 289, 463. repeat split; try (vm_compute; reflexivity). lia.
Qed.

(** C7, amended, at a world whose target file is the minimal file. *)
Lemma minimal_file_is_patched_witness :
  (run ascii_decode ascii_encode (world_of minimal_file)).1 = 0%Z /\
  fs (run ascii_decode ascii_encode (world_of minimal_file)).2
  = <[FILE_PATH := File (ascii_encode minimal_file_patched) true true]>
      (fs (world_of minimal_file)).
Proof.
  destruct (minimal_file_is_patched ascii_decode ascii_encode
              (world_of minimal_file) (File minimal_file true true))
    as (H0 & _ & Hfs & _); try (vm_compute; reflexivity).
  split; [by apply H0|exact Hfs].
Defined.

(** ** The target path *)

(** C9, as stated, fails: on a POSIX host the constant holds no directory
    separator of the platform at all; it names one file in the current
    directory. *)
Lemma file_path_not_posix :
  uses_os_sep Posix FILE_PATH = false /\
  separators_used Posix FILE_PATH = [] /\
  path_components Posix FILE_PATH = [FILE_PATH].
Proof. vm_compute. repeat split. Qed.

(** C9, amended.  The target path is the constant
    [worker\src\integrations\twelvedata.ts]; the run takes no argument and
    touches no other path.  The constant is a relative path (no leading
    separator, no drive) written with backslashes, the directory
    separator of Windows: there it has the four components [worker],
    [src], [integrations], [twelvedata.ts], and Windows is the only
    platform whose separator it uses. *)
Theorem file_path_constant :
  FILE_PATH = "worker\src\integrations\twelvedata.ts" /\
  path_components Windows FILE_PATH
  = ["worker"; "src"; "integrations"; "twelvedata.ts"] /\
  (forall p, uses_os_sep p FILE_PATH = true <-> p = Windows) /\
  (forall p, isabs p FILE_PATH = false) /\
  has_drive FILE_PATH = false /\
  (forall decode encode w path,
      path <> FILE_PATH ->
      fs (run decode encode w).2 !! path = fs w !! path).
Proof.
  split; [reflexivity|]. split; [vm_compute; reflexivity|].
  split; [|split; [|split]].
  - intros [|]; vm_compute; split; intros H; done.
  - by intros [|].
  - reflexivity.
  - intros decode encode w path. apply other_files_untouched.
Qed.

(** C9, amended: a run on the minimal file leaves another path alone. *)
Lemma file_path_constant_witness :
  "worker/src/integrations/twelvedata.ts" <> FILE_PATH /\
  fs (run ascii_decode ascii_encode (world_of minimal_file)).2
    !! "worker/src/integrations/twelvedata.ts"
  = fs (world_of minimal_file) !! "worker/src/integrations/twelvedata.ts".
Proof.
  assert (Hne : "worker/src/integrations/twelvedata.ts" <> FILE_PATH)
    by discriminate.
  split; [exact Hne|].
  destruct file_path_constant as (_ & _ & _ & _ & _ & H).
  by apply H.
Defined.

(** * Further properties of the code *)

(** ** [str.replace] at the head of a text *)

Section ReplaceEquations.
Variables old new : list N.
Hypothesis old_nonempty : old <> [].
Implicit Types s k p : list N.

Lemma str_replace_nil : str_replace [] old new = [].
Proof. by rewrite str_replace_scan. Qed.

Lemma str_replace_hit k :
  str_replace (old ++ k) old new = new ++ str_replace k old new.
Proof.
  apply (Replaced_fun old new old_nonempty (old ++ k)).
  - by apply str_replace_Replaced.
  - constructor. by apply str_replace_Replaced.
Qed.

Lemma str_replace_copy c s :
  startswith (c :: s) old = false ->
  str_replace (c :: s) old new = c :: str_replace s old new.
Proof.
  intros Hc. apply (Replaced_fun old new old_nonempty (c :: s)).
  - by apply str_replace_Replaced.
  - constructor; [done|]. by apply str_replace_Replaced.
Qed.

(** A prefix inside which [old] cannot start is copied. *)
Lemma str_replace_through p k :
  starts_inside old p = false ->
  str_replace (p ++ k) old new = p ++ str_replace k old new.
Proof.
  induction p as [|c p IH]; [done|].
  intros [Ha Hp]%starts_inside_cons.
  rewrite <- app_comm_cons, str_replace_copy; [by rewrite IH|].
  destruct (startswith (c :: p ++ k) old) eqn:Hs; [|done].
  apply (startswith_agree (c :: p) k old) in Hs. congruence.
Qed.

(** Where [p] does not start and no [new] can start inside [p], [p] does
    not start after the replacement either. *)
Lemma startswith_after_replace c s p :
  starts_inside new p = false ->
  startswith (c :: s) p = false ->
  startswith (c :: str_replace s old new) p = false.
Proof.
  intros Hn Hs.
  destruct (startswith (c :: str_replace s old new) p) eqn:Hr; [|done].
  rewrite <- Hs. symmetry.
  apply (Patched_startswith_back [(old, new)] (c :: s)
           (c :: str_replace s old new) p); [by repeat constructor| |done].
  constructor. apply Replaced_Patched. by apply str_replace_Replaced.
Qed.

Lemma count_hits_fuel fuel1 fuel2 s :
  length s <= fuel1 -> length s <= fuel2 ->
  count_hits old fuel1 s = count_hits old fuel2 s.
Proof.
  revert fuel2 s. induction fuel1 as [|fuel1 IH]; intros fuel2 s H1 H2.
  - destruct s; [by destruct fuel2 | simpl in H1; lia].
  - destruct s as [|c s]; [by destruct fuel2|].
    destruct fuel2 as [|fuel2]; [simpl in H2; lia|].
    simpl in H1, H2. cbn [count_hits].
    assert (0 < length old) by (destruct old; [done | simpl; lia]).
    destruct (startswith (c :: s) old).
    + f_equal. apply IH; rewrite length_drop; simpl; lia.
    + apply IH; lia.
Qed.

Lemma str_count_nil : str_count [] old = 0.
Proof. done. Qed.

Lemma str_count_hit k : str_count (old ++ k) old = S (str_count k old).
Proof.
  unfold str_count. destruct (old ++ k) as [|c s] eqn:Hs.
  - apply app_eq_nil in Hs as [? _]. done.
  - cbn [length count_hits]. rewrite <- Hs, startswith_app, drop_app_length.
    f_equal. apply count_hits_fuel; [|done].
    apply (f_equal length) in Hs. rewrite length_app in Hs.
    assert (0 < length old) by (destruct old; [done | simpl; lia]).
    simpl in Hs. lia.
Qed.

Lemma str_count_copy c s :
  startswith (c :: s) old = false -> str_count (c :: s) old = str_count s old.
Proof.
  intros Hc. unfold str_count. cbn [length count_hits]. by rewrite Hc.
Qed.

Lemma str_count_through p k :
  starts_inside old p = false -> str_count (p ++ k) old = str_count k old.
Proof.
  induction p as [|c p IH]; [done|].
  intros [Ha Hp]%starts_inside_cons.
  rewrite <- app_comm_cons, str_count_copy; [by apply IH|].
  destruct (startswith (c :: p ++ k) old) eqn:Hs; [|done].
  apply (startswith_agree (c :: p) k old) in Hs. congruence.
Qed.

End ReplaceEquations.

(** ** Two replacements whose texts share no position *)

Section TwoReplacements.
Variables a a' b b' : list N.
Hypothesis a_nonempty : a <> [].
Hypothesis b_nonempty : b <> [].
Hypothesis a_b : overlap_free a b = true.
Hypothesis a'_b : overlap_free a' b = true.

Lemma inside_facts :
  starts_inside b a = false /\ starts_inside a b = false /\
  starts_inside b a' = false /\ starts_inside a' b = false.
Proof.
  unfold overlap_free in a_b, a'_b.
  apply Bool.andb_true_iff in a_b as [H1 H2], a'_b as [H3 H4].
  apply Bool.negb_true_iff in H1, H2, H3, H4. done.
Qed.

(** [a] and [b] do not start at the same place. *)
Lemma not_both_start s :
  startswith s a = true -> startswith s b = true -> False.
Proof.
  destruct inside_facts as (Hba & _).
  intros [k ->]%startswith_spec Hb. destruct a as [|c p]; [done|].
  apply starts_inside_cons in Hba as [Ha _].
  apply (startswith_agree (c :: p) k b) in Hb. congruence.
Qed.

(** Replacing [a] by [a'] neither adds nor removes an occurrence of [b]
    that [b.count] sees. *)
Lemma str_count_after_replace s :
  str_count (str_replace s a a') b = str_count s b.
Proof.
  destruct inside_facts as (Hba & Hab & Hba' & Ha'b).
  remember (length s) as n eqn:Hn. revert s Hn.
  induction (lt_wf n) as [n _ IH]. intros s ->.
  destruct s as [|c s]; [by rewrite str_replace_nil|].
  destruct (startswith (c :: s) a) eqn:Hsa.
  - apply startswith_spec in Hsa as [k Hk]. rewrite Hk.
    rewrite str_replace_hit, !str_count_through by done.
    apply (IH (length k)); [|done].
    apply (f_equal length) in Hk. rewrite length_app in Hk.
    destruct a; [done | simpl in Hk |- *; lia].
  - rewrite str_replace_copy by done.
    destruct (startswith (c :: s) b) eqn:Hsb.
    + apply startswith_spec in Hsb as [k Hk].
      destruct b as [|d q] eqn:Hb; [done|]. injection Hk as -> ->.
      rewrite (str_replace_through a a' a_nonempty q k).
      * change (d :: q ++ str_replace k a a')
          with ((d :: q) ++ str_replace k a a').
        change (d :: q ++ k) with ((d :: q) ++ k).
        rewrite !str_count_hit by done. f_equal.
        apply (IH (length k)); [|done]. cbn [length].
        rewrite length_app. lia.
      * by apply starts_inside_cons in Hab as [_ ?].
    + rewrite !str_count_copy; [by apply (IH (length s)); [simpl; lia|]|done|].
      by apply startswith_after_replace.
Qed.

Hypothesis a_b' : overlap_free a b' = true.

(** The two replacements commute. *)
Lemma str_replace_comm s :
  str_replace (str_replace s a a') b b' = str_replace (str_replace s b b') a a'.
Proof.
  destruct inside_facts as (Hba & Hab & Hba' & Ha'b).
  assert (Hab' : starts_inside a b' = false /\ starts_inside b' a = false).
  { unfold overlap_free in a_b'.
    apply Bool.andb_true_iff in a_b' as [H1 H2].
    by apply Bool.negb_true_iff in H1, H2. }
  destruct Hab' as [Hab' Hb'a].
  remember (length s) as n eqn:Hn. revert s Hn.
  induction (lt_wf n) as [n _ IH]. intros s ->.
  destruct s as [|c s]; [by rewrite !str_replace_nil|].
  destruct (startswith (c :: s) a) eqn:Hsa.
  - apply startswith_spec in Hsa as [k Hk]. rewrite Hk.
    rewrite (str_replace_hit a a' a_nonempty).
    rewrite (str_replace_through b b' b_nonempty a') by done.
    rewrite (str_replace_through b b' b_nonempty a) by done.
    rewrite (str_replace_hit a a' a_nonempty). f_equal.
    apply (IH (length k)); [|done].
    apply (f_equal length) in Hk. rewrite length_app in Hk.
    destruct a; [done | simpl in Hk |- *; lia].
  - rewrite (str_replace_copy a a' a_nonempty) by done.
    destruct (startswith (c :: s) b) eqn:Hsb.
    + apply startswith_spec in Hsb as [k Hk]. rewrite Hk.
      assert (Hlen : length k < length (c :: s)).
      { apply (f_equal length) in Hk. rewrite length_app in Hk.
        destruct b; [done | simpl in Hk |- *; lia]. }
      assert (Hka : c :: str_replace s a a' = b ++ str_replace k a a').
      { rewrite <- (str_replace_through a a' a_nonempty b k) by done.
        rewrite <- Hk. by rewrite (str_replace_copy a a' a_nonempty). }
      rewrite Hka, !(str_replace_hit b b' b_nonempty).
      rewrite (str_replace_through a a' a_nonempty b') by done. f_equal.
      by apply (IH (length k)).
    + rewrite (str_replace_copy b b' b_nonempty c s) by done.
      rewrite (str_replace_copy b b' b_nonempty), (str_replace_copy a a' a_nonempty).
      * f_equal. apply (IH (length s)); [simpl; lia|done].
      * by apply (startswith_after_replace b b' b_nonempty).
      * by apply (startswith_after_replace a a' a_nonempty).
Qed.

End TwoReplacements.

(** ** The transformation: order of the fixes, growth of the text *)

Lemma pattern_lengths :
  length old_function = 350 /\ length new_func = 643 /\
  length candles_old = 57 /\ length candles_new = 63 /\
  length quote_old = 101 /\ length quote_new = 107.
Proof. vm_compute. repeat split. Qed.

(** X1. The order of the three fixes does not matter: each pair of steps
    commutes on every text, and the steps taken in the reverse order give
    the result of [apply_fixes]. *)
Theorem fixes_commute (s : list N) :
  exists t1,
    re_sub old_func new_func s DOTALL = Some t1 /\
    re_sub old_func new_func (str_replace s candles_old candles_new) DOTALL
    = Some (str_replace t1 candles_old candles_new) /\
    re_sub old_func new_func (str_replace s quote_old quote_new) DOTALL
    = Some (str_replace t1 quote_old quote_new) /\
    str_replace (str_replace s candles_old candles_new) quote_old quote_new
    = str_replace (str_replace s quote_old quote_new) candles_old candles_new /\
    re_sub old_func new_func
      (str_replace (str_replace s quote_old quote_new) candles_old candles_new)
      DOTALL
    = apply_fixes_content s.
Proof.
  destruct overlaps
    as (_ & _ & _ & O4 & O5 & O6 & O7 & O8 & O9 & O10 & O11 & O12).
  rewrite (overlap_free_sym candles_new) in O10.
  rewrite (overlap_free_sym quote_new) in O11, O12.
  pose proof old_function_nonempty as N1.
  pose proof candles_old_nonempty as N2.
  pose proof quote_old_nonempty as N3.
  assert (C12 : forall u,
    str_replace (str_replace u old_function new_func) candles_old candles_new
    = str_replace (str_replace u candles_old candles_new) old_function new_func)
    by (intros u; by apply str_replace_comm).
  assert (C13 : forall u,
    str_replace (str_replace u old_function new_func) quote_old quote_new
    = str_replace (str_replace u quote_old quote_new) old_function new_func)
    by (intros u; by apply str_replace_comm).
  assert (C23 : forall u,
    str_replace (str_replace u candles_old candles_new) quote_old quote_new
    = str_replace (str_replace u quote_old quote_new) candles_old candles_new)
    by (intros u; by apply str_replace_comm).
  exists (str_replace s old_function new_func).
  rewrite apply_fixes_content_eq, !fix1_literal.
  split; [done|]. split; [by rewrite C12|]. split; [by rewrite C13|].
  split; [by rewrite C23|]. by rewrite C12, C13, C23.
Qed.

(** X2. The transformation never shortens the text: the output is longer
    than the input by 293 characters for every old function definition,
    and by 6 for every call-site statement of either kind, that the input
    holds ([str_count], the occurrences [s.count] counts). *)
Theorem patched_length (s : list N) :
  exists t,
    apply_fixes_content s = Some t /\
    length t
    = length s + 293 * str_count s old_function
      + 6 * str_count s candles_old + 6 * str_count s quote_old.
Proof.
  destruct overlaps as (_ & _ & _ & O4 & O5 & O6 & O7 & O8 & O9 & _).
  pose proof old_function_nonempty as N1.
  pose proof candles_old_nonempty as N2.
  pose proof quote_old_nonempty as N3.
  destruct pattern_lengths as (L1 & L1' & L2 & L2' & L3 & L3').
  eexists. split; [apply apply_fixes_content_eq|].
  pose proof (str_replace_count s old_function new_func N1) as E1.
  set (t1 := str_replace s old_function new_func) in *.
  pose proof (str_replace_count t1 candles_old candles_new N2) as E2.
  set (t2 := str_replace t1 candles_old candles_new) in *.
  pose proof (str_replace_count t2 quote_old quote_new N3) as E3.
  assert (P2 : str_count t1 candles_old = str_count s candles_old)
    by (by apply str_count_after_replace).
  assert (P3 : str_count t2 quote_old = str_count s quote_old).
  { unfold t2. rewrite (str_count_after_replace candles_old candles_new quote_old)
      by done. by apply str_count_after_replace. }
  rewrite P2 in E2. rewrite P3 in E3.
  rewrite L1, L1' in E1. rewrite L2, L2' in E2. rewrite L3, L3' in E3. lia.
Qed.

(** ** The process: console, permissions, faults *)

Section ProcessExtras.
Variable decode : list N -> option (list N).
Variable encode : list N -> list N.

(** X3. The console of a run, by outcome, the error line carrying the
    text [str(e)] the platform gives.  On a console that has the symbols:
    a failed read prints the reading line and the error line; without
    change the four progress lines and the no-change line follow each
    other; with a change the writing line comes next, followed by the
    success lines when the write returned and by the error line when it
    raised.  On a console without the symbols the run prints the same
    lines up to the first one that holds a symbol, and stops there.
    Earlier console content stays. *)
Theorem console_output (w : World) :
  stdout (run decode encode w).2
  = stdout w ++ printed w (run decode encode w).2 /\
  ((exists e, (read_text decode FILE_PATH w).1 = inl e /\
      printed w (run decode encode w).2
      = "Reading file..."
          :: (if stdout_symbols w then [line_error w e] else [])) \/
   (exists c, (read_text decode FILE_PATH w).1 = inr c /\
      apply_fixes_content c = Some c /\
      printed w (run decode encode w).2
      = lines_steps ++ (if stdout_symbols w then [line_no_changes] else [])) \/
   (exists c t, (read_text decode FILE_PATH w).1 = inr c /\
      apply_fixes_content c = Some t /\ t <> c /\
      (write_text encode FILE_PATH t w).1 = inr tt /\
      printed w (run decode encode w).2
      = lines_steps ++ line_writing
          :: (if stdout_symbols w then lines_success else [])) \/
   (exists c t e, (read_text decode FILE_PATH w).1 = inr c /\
      apply_fixes_content c = Some t /\ t <> c /\
      (write_text encode FILE_PATH t w).1 = inl e /\
      printed w (run decode encode w).2
      = lines_steps ++ line_writing
          :: (if stdout_symbols w then [line_error w e] else []))).
Proof.
  unfold printed.
  destruct (run_explicit decode encode w) as [_ H].
  destruct H as [(e & Hr & ->)|[(c & Hr & Ht & ->)|
    [(c & t & Hr & Ht & Hne & Hw & ->)|(c & t & e & Hr & Ht & Hne & Hw & ->)]]];
    cbn [snd stdout set_stdout]; rewrite drop_app_length;
    (split; [reflexivity|]).
  - left. exists e. split; [assumption | reflexivity].
  - right. left. exists c. repeat (split; [assumption|]). reflexivity.
  - do 2 right. left. exists c, t. repeat (split; [assumption|]). reflexivity.
  - do 3 right. exists c, t, e. repeat (split; [assumption|]). reflexivity.
Qed.

Lemma line_error_not_success w e : line_error w e <> line_success.
Proof. unfold line_error, line_success. cbn [String.append]. discriminate. Qed.

(** X4. The success line is printed exactly by the runs that exit with
    status 0. *)
Theorem success_line_iff_status_0 (w : World) :
  line_success ∈ printed w (run decode encode w).2 <->
  (run decode encode w).1 = 0%Z.
Proof.
  pose proof (line_error_not_success w) as Herr.
  unfold printed.
  destruct (run_explicit decode encode w) as [_ H].
  destruct H as [(e & Hr & ->)|[(c & Hr & Ht & ->)|
    [(c & t & Hr & Ht & Hne & Hw & ->)|(c & t & e & Hr & Ht & Hne & Hw & ->)]]];
    cbn [fst snd stdout set_stdout]; rewrite drop_app_length;
    destruct (stdout_symbols w);
    unfold lines_steps, lines_success; cbn [app];
    rewrite ?elem_of_cons, elem_of_nil.
  all: split; [|first [discriminate | intros _; do 5 right; left; reflexivity]].
  all: intros H;
    repeat match goal with
           | H : _ \/ _ |- _ => destruct H as [H|H]
           end;
    first [ reflexivity | discriminate H | contradiction
          | symmetry in H; by apply Herr in H ].
Qed.

(** X5. A target file that may not be written: whatever it holds, the run
    exits with status 1 and the file system stays as it was. *)
Theorem read_only_target (w : World) (f : file) :
  fs w !! FILE_PATH = Some f ->
  f_writable f = false ->
  (run decode encode w).1 = 1%Z /\ fs (run decode encode w).2 = fs w.
Proof.
  intros Hf Hw.
  destruct (run_cases decode encode w)
    as [(e & Hr & H1 & Hfs)|[(c & Hr & Ht & H1 & Hfs)|
      [(c & t & Hr & Ht & Hne & Hwr & _)|
       (c & t & e & Hr & Ht & Hne & Hwr & H1 & Hfs)]]];
    [split; assumption|split; assumption| |].
  - rewrite (write_text_not_writable _ _ t w f) in Hwr by assumption.
    discriminate Hwr.
  - rewrite (write_text_not_writable _ _ t w f) in Hfs by assumption.
    split; assumption.
Qed.

(** X6. No protection of the file against a failing write: when the
    device takes only [n] bytes, fewer than the final write has, the run
    exits with status 1 and the target file is left with the first [n]
    bytes of the new content, the old content being lost. *)
Theorem fault_leaves_partial_file (w : World) (f : file) (c t : list N) (n : nat) :
  fs w !! FILE_PATH = Some f ->
  f_writable f = true ->
  (read_text decode FILE_PATH w).1 = inr c ->
  apply_fixes_content c = Some t ->
  t <> c ->
  write_fault w = Some n ->
  n < length (encode t) ->
  (run decode encode w).1 = 1%Z /\
  fs (run decode encode w).2
  = <[FILE_PATH := File (take n (encode t)) (f_readable f) true]> (fs w).
Proof.
  intros Hf Hw Hr Ht Hne Hn Hlt.
  assert (Hwrite : write_text encode FILE_PATH t w
    = (inl OSError,
       set_fs (<[FILE_PATH := File (take n (encode t)) (f_readable f) true]> (fs w))
         w)).
  { unfold write_text. rewrite Hf. cbv [from_option id]. cbv zeta.
    rewrite Hw, Hn. cbn [fails written].
    apply Nat.ltb_lt in Hlt. by rewrite Hlt. }
  destruct (run_cases decode encode w)
    as [(e & Hr' & _)|[(c' & Hr' & Ht' & _)|
      [(c' & t' & Hr' & Ht' & _ & Hwr & _)|
       (c' & t' & e & Hr' & Ht' & _ & _ & H1 & Hfs)]]].
  - congruence.
  - assert (c' = c) as -> by congruence. exfalso. apply Hne. congruence.
  - assert (c' = c) as -> by congruence.
    assert (t' = t) as -> by congruence.
    rewrite Hwrite in Hwr. discriminate Hwr.
  - assert (c' = c) as -> by congruence.
    assert (t' = t) as -> by congruence.
    rewrite Hwrite in Hfs. split; assumption.
Qed.

(** X7. A run neither creates nor removes a file and changes no
    permission: every path has a file after the run exactly when it had
    one before, with the same read and write permissions. *)
Theorem run_keeps_files (w : World) (path : string) :
  (fun f => (f_readable f, f_writable f)) <$> fs (run decode encode w).2 !! path
  = (fun f => (f_readable f, f_writable f)) <$> fs w !! path.
Proof.
  assert (Hw : forall c t,
    (read_text decode FILE_PATH w).1 = inr c ->
    (fun f => (f_readable f, f_writable f))
      <$> fs (write_text encode FILE_PATH t w).2 !! path
    = (fun f => (f_readable f, f_writable f)) <$> fs w !! path).
  { intros c t. unfold read_text, write_text.
    destruct (fs w !! FILE_PATH) as [f|] eqn:Hf; [|discriminate]. intros _.
    cbv [from_option id]. destruct (f_writable f) eqn:Hfw; [|reflexivity].
    destruct (decide (path = FILE_PATH)) as [->|Hp].
    - destruct (fails _ _); cbn [snd fs set_fs]; rewrite lookup_insert_eq, Hf;
        cbn [fmap option_fmap option_map f_readable f_writable];
        by rewrite Hfw.
    - destruct (fails _ _); cbn [snd fs set_fs]; by rewrite lookup_insert_ne. }
  destruct (run_cases decode encode w)
    as [(e & Hr & _ & ->)|[(c & Hr & Ht & _ & ->)|
      [(c & t & Hr & Ht & _ & _ & _ & ->)|(c & t & e & Hr & Ht & _ & _ & _ & ->)]]];
    [reflexivity|reflexivity| |]; by eapply Hw.
Qed.

(** X8. The tool works once per file: behind a run that exited with 0, a
    second run, reading back the content the first one wrote, finds
    nothing to change, exits with 1 and leaves the file system as the
    first run left it. *)
Theorem second_run_is_no_op (w : World) (c t : list N) :
  (read_text decode FILE_PATH w).1 = inr c ->
  apply_fixes_content c = Some t ->
  decode (encode t) = Some t ->
  (run decode encode w).1 = 0%Z ->
  (run decode encode (run decode encode w).2).1 = 1%Z /\
  fs (run decode encode (run decode encode w).2).2
  = fs (run decode encode w).2.
Proof.
  intros Hr Ht Hcodec H0.
  destruct (run_explicit decode encode w) as [_ H].
  destruct H as [(e & Hr1 & Hrun)|[(c1 & Hr1 & Ht1 & Hrun)|
    [(c1 & t1 & Hr1 & Ht1 & Hne & Hw & Hrun)|
     (c1 & t1 & e & Hr1 & Ht1 & Hne & Hw & Hrun)]]];
    rewrite Hrun in H0 |- *; cbn [fst] in H0; try discriminate H0.
  clear Hrun. assert (c1 = c) as -> by congruence.
  assert (t1 = t) as -> by congruence. cbn [snd].
  match goal with
  | |- context [run decode encode ?x] => set (w' := x)
  end.
  assert (Hr' : (read_text decode FILE_PATH w').1 = inr t).
  { unfold w'. rewrite read_text_set_stdout. cbn [fst].
    by apply (read_after_write decode encode c). }
  destruct (output_is_fixed_point c t Ht) as (_ & _ & _ & Hfix).
  clearbody w'.
  destruct (run_cases decode encode w')
    as [(e' & Hr2 & _)|[(c' & Hr2 & Ht2 & H1 & Hfs)|
      [(c' & t' & Hr2 & Ht2 & Hne2 & _)|(c' & t' & e' & Hr2 & Ht2 & Hne2 & _)]]];
    [congruence | split; assumption | exfalso..].
  all: assert (c' = t) as -> by congruence.
  all: apply Hne2; congruence.
Qed.

End ProcessExtras.

(** X5 at a read-only file that holds every old pattern. *)
Lemma read_only_target_witness :
  (run ascii_decode ascii_encode (read_only (world_of minimal_file))).1 = 1%Z /\
  fs (run ascii_decode ascii_encode (read_only (world_of minimal_file))).2
  = fs (read_only (world_of minimal_file)).
Proof.
  apply (read_only_target ascii_decode ascii_encode
           (read_only (world_of minimal_file))
           (File minimal_file true false));
    vm_compute; reflexivity.
Defined.

(** X6 at the minimal file, the device taking 8 bytes. *)
Lemma fault_leaves_partial_file_witness :
  (run ascii_decode ascii_encode (device_limit 8 (world_of minimal_file))).1
  = 1%Z /\
  fs (run ascii_decode ascii_encode (device_limit 8 (world_of minimal_file))).2
  = <[FILE_PATH := File (take 8 (ascii_encode minimal_file_patched)) true true]>
      (fs (device_limit 8 (world_of minimal_file))).
Proof.
  apply (fault_leaves_partial_file ascii_decode ascii_encode
           (device_limit 8 (world_of minimal_file))
           (File minimal_file true true) minimal_file minimal_file_patched 8);
    try (vm_compute; reflexivity).
  - intros H. apply (f_equal length) in H. vm_compute in H. discriminate.
  - vm_compute. lia.
Defined.

(** X8 at the minimal file. *)
Lemma second_run_is_no_op_witness :
  (run ascii_decode ascii_encode
     (run ascii_decode ascii_encode (world_of minimal_file)).2).1 = 1%Z /\
  fs (run ascii_decode ascii_encode
        (run ascii_decode ascii_encode (world_of minimal_file)).2).2
  = fs (run ascii_decode ascii_encode (world_of minimal_file)).2.
Proof.
  apply (second_run_is_no_op ascii_decode ascii_encode
           (world_of minimal_file) minimal_file minimal_file_patched);
    vm_compute; reflexivity.
Defined.
